(** * The gallery lightbox of [assets/js/gallery.js]

    A shallow embedding of the [Lightbox] class: the fields of the
    instance, the part of the host document the class reads and writes,
    and every method as a computation over the two.

    Conventions.
    - JavaScript numbers that hold array indices are integers far below
      2^53, where the arithmetic of the source is exact; they are
      modelled in [Z].  The remainder operator [%] truncates towards
      zero and is [Z.rem].
    - [undefined] and [null] are [None].
    - A gallery image is an object with two string fields, as
      [initGallery] builds it. *)

From Stdlib Require Import ZArith List String Ascii Bool Lia DecimalString.
From Stdlib Require DecimalZ DecimalPos.
Import ListNotations.

Local Open Scope list_scope.
Local Open Scope string_scope.
Local Open Scope Z_scope.

(** ** Data *)

(** The objects pushed onto [images] by [initGallery]. *)
Record Image : Type := mkImage {
  src : string;
  alt : string
}.

(** The elements of the page that can hold focus: the body, the three
    buttons of the overlay created by [createLightbox], and the other
    elements of the page (gallery items and the like), numbered in
    document order. *)
Inductive Element : Type :=
| Body
| CloseBtn
| PrevBtn
| NextBtn
| PageElem (n : nat).

Definition Element_eqb (a b : Element) : bool :=
  match a, b with
  | Body, Body | CloseBtn, CloseBtn | PrevBtn, PrevBtn | NextBtn, NextBtn => true
  | PageElem n, PageElem m => Nat.eqb n m
  | _, _ => false
  end.

(** The fields of a [Lightbox] instance. [focusableElements] is the
    static node list returned by [querySelectorAll('button')] in
    [createLightbox]; it is computed once and never refreshed. *)
Record Lightbox : Type := mkLightbox {
  images : list Image;
  currentIndex : Z;
  isOpen : bool;
  focusedElementBeforeOpen : option Element;
  focusableElements : list Element
}.

(** The part of the document the class touches.
    - [liveRegions]: the text content of every element whose id is
      [lightbox-live-region], in document order ([getElementById]
      finds the first).
    - [prevDisplay], [nextDisplay]: the inline [style.display] of the
      two navigation buttons.
    - [pageTabbables]: the tabbable elements of the page outside the
      overlay, in document order; the overlay is appended to the body,
      after them. *)
Record Document : Type := mkDocument {
  activeElement : Element;
  bodyOverflow : string;
  lightboxActive : bool;
  imageSrc : string;
  imageAlt : string;
  captionText : string;
  prevDisplay : string;
  nextDisplay : string;
  liveRegions : list string;
  pageTabbables : list nat
}.

Record World : Type := mkWorld {
  this : Lightbox;
  document : Document
}.

(** ** A state monad over the instance and the document *)

Definition M (A : Type) : Type := World -> A * World.

Definition ret {A : Type} (a : A) : M A := fun w => (a, w).

Definition bind {A B : Type} (m : M A) (k : A -> M B) : M B :=
  fun w => let (a, w') := m w in k a w'.

Notation "x <- m ;; k" := (bind m (fun x => k))
  (at level 61, m at next level, right associativity).
Notation "m ;; k" := (bind m (fun _ => k))
  (at level 61, right associativity).

Definition getThis : M Lightbox := fun w => (this w, w).
Definition getDocument : M Document := fun w => (document w, w).
Definition modifyThis (f : Lightbox -> Lightbox) : M unit :=
  fun w => (tt, mkWorld (f (this w)) (document w)).
Definition modifyDocument (f : Document -> Document) : M unit :=
  fun w => (tt, mkWorld (this w) (f (document w))).

(** Running a computation for its effect only. *)
Definition exec {A : Type} (m : M A) (w : World) : World := snd (m w).
Definition eval {A : Type} (m : M A) (w : World) : A := fst (m w).

(** ** Field assignments *)

Definition set_images (v : list Image) (l : Lightbox) : Lightbox :=
  mkLightbox v (currentIndex l) (isOpen l) (focusedElementBeforeOpen l)
             (focusableElements l).
Definition set_currentIndex (v : Z) (l : Lightbox) : Lightbox :=
  mkLightbox (images l) v (isOpen l) (focusedElementBeforeOpen l)
             (focusableElements l).
Definition set_isOpen (v : bool) (l : Lightbox) : Lightbox :=
  mkLightbox (images l) (currentIndex l) v (focusedElementBeforeOpen l)
             (focusableElements l).
Definition set_focusedElementBeforeOpen (v : option Element) (l : Lightbox)
  : Lightbox :=
  mkLightbox (images l) (currentIndex l) (isOpen l) v (focusableElements l).

Definition set_activeElement (v : Element) (d : Document) : Document :=
  mkDocument v (bodyOverflow d) (lightboxActive d) (imageSrc d) (imageAlt d)
             (captionText d) (prevDisplay d) (nextDisplay d) (liveRegions d)
             (pageTabbables d).
Definition set_bodyOverflow (v : string) (d : Document) : Document :=
  mkDocument (activeElement d) v (lightboxActive d) (imageSrc d) (imageAlt d)
             (captionText d) (prevDisplay d) (nextDisplay d) (liveRegions d)
             (pageTabbables d).
Definition set_lightboxActive (v : bool) (d : Document) : Document :=
  mkDocument (activeElement d) (bodyOverflow d) v (imageSrc d) (imageAlt d)
             (captionText d) (prevDisplay d) (nextDisplay d) (liveRegions d)
             (pageTabbables d).
Definition set_imageSrc (v : string) (d : Document) : Document :=
  mkDocument (activeElement d) (bodyOverflow d) (lightboxActive d) v
             (imageAlt d) (captionText d) (prevDisplay d) (nextDisplay d)
             (liveRegions d) (pageTabbables d).
Definition set_imageAlt (v : string) (d : Document) : Document :=
  mkDocument (activeElement d) (bodyOverflow d) (lightboxActive d)
             (imageSrc d) v (captionText d) (prevDisplay d) (nextDisplay d)
             (liveRegions d) (pageTabbables d).
Definition set_captionText (v : string) (d : Document) : Document :=
  mkDocument (activeElement d) (bodyOverflow d) (lightboxActive d)
             (imageSrc d) (imageAlt d) v (prevDisplay d) (nextDisplay d)
             (liveRegions d) (pageTabbables d).
Definition set_prevDisplay (v : string) (d : Document) : Document :=
  mkDocument (activeElement d) (bodyOverflow d) (lightboxActive d)
             (imageSrc d) (imageAlt d) (captionText d) v (nextDisplay d)
             (liveRegions d) (pageTabbables d).
Definition set_nextDisplay (v : string) (d : Document) : Document :=
  mkDocument (activeElement d) (bodyOverflow d) (lightboxActive d)
             (imageSrc d) (imageAlt d) (captionText d) (prevDisplay d) v
             (liveRegions d) (pageTabbables d).
Definition set_liveRegions (v : list string) (d : Document) : Document :=
  mkDocument (activeElement d) (bodyOverflow d) (lightboxActive d)
             (imageSrc d) (imageAlt d) (captionText d) (prevDisplay d)
             (nextDisplay d) v (pageTabbables d).

(** ** JavaScript primitives used by the class *)

(** [images.length] as a number. *)
Definition len {A : Type} (l : list A) : Z := Z.of_nat (List.length l).

(** [arr[i]] for an integer [i]: the element when [0 <= i < arr.length],
    [undefined] otherwise (a negative number names no element). *)
Definition item_at {A : Type} (l : list A) (i : Z) : option A :=
  if i <? 0 then None else nth_error l (Z.to_nat i).

(** The text of an integer inside a template literal. *)
Definition num (z : Z) : string := NilZero.string_of_int (Z.to_int z).

(** [s || fallback] on strings: the empty string is falsy. *)
Definition or_else (s fallback : string) : string :=
  match s with
  | EmptyString => fallback
  | _ => s
  end.

(** ** The host's focus rules

    [el.focus()] moves the focus to [el] unless [el] cannot take it.
    The body takes no focus, neither does a button whose inline
    [display] is [none]. *)
Definition displayNone (d : Document) (e : Element) : bool :=
  match e with
  | PrevBtn => String.eqb (prevDisplay d) "none"
  | NextBtn => String.eqb (nextDisplay d) "none"
  | _ => false
  end.

Definition focusable (d : Document) (e : Element) : bool :=
  match e with
  | Body => false
  | _ => negb (displayNone d e)
  end.

Definition focus (e : Element) : M unit :=
  modifyDocument (fun d => if focusable d e then set_activeElement e d else d).

(** ** The methods of [Lightbox] *)

(** [announce(message)]: the live region is looked up by id, created
    and appended to the body when there is none, and its text content
    is then assigned. *)
Definition announce (message : string) : M unit :=
  d <- getDocument ;;
  (match liveRegions d with
   | [] => modifyDocument (set_liveRegions [""])
   | _ :: _ => ret tt
   end) ;;
  modifyDocument (fun d => set_liveRegions (message :: tl (liveRegions d)) d).

(** [updateImage()]: nothing happens when [images[currentIndex]] is
    [undefined]. *)
Definition updateImage : M unit :=
  l <- getThis ;;
  match item_at (images l) (currentIndex l) with
  | None => ret tt
  | Some image =>
      modifyDocument (set_imageSrc (src image)) ;;
      modifyDocument
        (set_imageAlt
           (or_else (alt image)
              ("Image " ++ num (currentIndex l + 1) ++ " of "
                        ++ num (len (images l))))) ;;
      modifyDocument (set_captionText (or_else (alt image) "")) ;;
      announce ("Image " ++ num (currentIndex l + 1) ++ " of "
                         ++ num (len (images l)) ++ ": "
                         ++ or_else (alt image) "No description")
  end.

(** [updateNavVisibility()] *)
Definition updateNavVisibility : M unit :=
  l <- getThis ;;
  let hidden := len (images l) <=? 1 in
  modifyDocument (set_prevDisplay (if hidden then "none" else "flex")) ;;
  modifyDocument (set_nextDisplay (if hidden then "none" else "flex")).

(** [open(images, startIndex)]. The default [startIndex = 0] of the
    source is [open_default]. *)
Definition open (imgs : list Image) (startIndex : Z) : M unit :=
  modifyThis (set_images imgs) ;;
  modifyThis (set_currentIndex startIndex) ;;
  d <- getDocument ;;
  modifyThis (set_focusedElementBeforeOpen (Some (activeElement d))) ;;
  updateImage ;;
  modifyDocument (set_lightboxActive true) ;;
  modifyThis (set_isOpen true) ;;
  modifyDocument (set_bodyOverflow "hidden") ;;
  focus CloseBtn ;;
  updateNavVisibility.

Definition open_default (imgs : list Image) : M unit := open imgs 0.

(** [close()] *)
Definition close : M unit :=
  modifyDocument (set_lightboxActive false) ;;
  modifyThis (set_isOpen false) ;;
  modifyDocument (set_bodyOverflow "") ;;
  l <- getThis ;;
  match focusedElementBeforeOpen l with
  | Some e => focus e
  | None => ret tt
  end.

(** [prev()] *)
Definition prev : M unit :=
  l <- getThis ;;
  if len (images l) <=? 1 then ret tt
  else
    modifyThis
      (set_currentIndex
         (Z.rem (currentIndex l - 1 + len (images l)) (len (images l)))) ;;
    updateImage.

(** [next()] *)
Definition next : M unit :=
  l <- getThis ;;
  if len (images l) <=? 1 then ret tt
  else
    modifyThis
      (set_currentIndex (Z.rem (currentIndex l + 1) (len (images l)))) ;;
    updateImage.

(** The two fields of a keyboard event the class reads. *)
Record KeyboardEvent : Type := mkKeyboardEvent {
  key : string;
  shiftKey : bool
}.

(** [document.activeElement === x] where [x] may be [undefined]. *)
Definition is_element (a : Element) (x : option Element) : bool :=
  match x with
  | Some b => Element_eqb a b
  | None => false
  end.

(** [x.focus()] where [x] is an entry of the node list. Both calls of
    [trapFocus] are guarded by [document.activeElement === ...] on an
    entry of the same list, so [x] is an element whenever a call is
    reached. *)
Definition focus_entry (x : option Element) : M unit :=
  match x with
  | Some e => focus e
  | None => ret tt
  end.

(** [trapFocus(e)]. The result tells whether [e.preventDefault()] was
    called. *)
Definition trapFocus (e : KeyboardEvent) : M bool :=
  l <- getThis ;;
  let firstFocusable := item_at (focusableElements l) 0 in
  let lastFocusable :=
    item_at (focusableElements l) (len (focusableElements l) - 1) in
  d <- getDocument ;;
  if shiftKey e then
    if is_element (activeElement d) firstFocusable then
      focus_entry lastFocusable ;; ret true
    else ret false
  else
    if is_element (activeElement d) lastFocusable then
      focus_entry firstFocusable ;; ret true
    else ret false.

(** [handleKeydown(e)]. The result tells whether [e.preventDefault()]
    was called. *)
Definition handleKeydown (e : KeyboardEvent) : M bool :=
  l <- getThis ;;
  if negb (isOpen l) then ret false
  else if String.eqb (key e) "Escape" then close ;; ret true
  else if String.eqb (key e) "ArrowLeft" then prev ;; ret true
  else if String.eqb (key e) "ArrowRight" then next ;; ret true
  else if String.eqb (key e) "Tab" then trapFocus e
  else ret false.

(** [new Lightbox()] on a page [d]: the constructor's field values, and
    the overlay of [createLightbox] with its empty image, empty caption
    and three buttons in the order close, previous, next. *)
Definition new_Lightbox (d : Document) : World :=
  mkWorld
    (mkLightbox [] 0 false None [CloseBtn; PrevBtn; NextBtn])
    (mkDocument (activeElement d) (bodyOverflow d) false "" "" "" "" ""
                (liveRegions d) (pageTabbables d)).

(** A page as it is loaded: nothing locked, no live region yet. *)
Definition page (active : Element) (tabbables : list nat) : Document :=
  mkDocument active "" false "" "" "" "" "" [] tabbables.

(** ** Sequences of calls *)

Inductive Call : Type :=
| CallOpen (imgs : list Image) (startIndex : Z)
| CallClose
| CallPrev
| CallNext
| CallKeydown (e : KeyboardEvent).

Definition call (c : Call) : M unit :=
  match c with
  | CallOpen imgs startIndex => open imgs startIndex
  | CallClose => close
  | CallPrev => prev
  | CallNext => next
  | CallKeydown e => handleKeydown e ;; ret tt
  end.

Definition run (cs : list Call) (w : World) : World :=
  fold_left (fun w c => exec (call c) w) cs w.

(** [n] calls of the same method in a row. *)
Fixpoint times (n : nat) (m : M unit) : M unit :=
  match n with
  | O => ret tt
  | S k => m ;; times k m
  end.

(** ** The host's sequential focus navigation

    What the browser does with a Tab key press the page did not
    cancel, while the overlay is shown: the focus moves to the
    neighbour of the active element in the tab order, cyclically.  The
    tab order is the tabbable elements of the page followed by the
    buttons of the overlay that are displayed. *)

Definition overlayControls : list Element := [CloseBtn; PrevBtn; NextBtn].

Definition visibleControls (d : Document) : list Element :=
  filter (fun e => negb (displayNone d e)) overlayControls.

Definition tabOrder (d : Document) : list Element :=
  (map PageElem (pageTabbables d) ++ visibleControls d)%list.

Fixpoint position (a : Element) (l : list Element) : option nat :=
  match l with
  | [] => None
  | b :: l' =>
      if Element_eqb a b then Some O
      else option_map S (position a l')
  end.

Definition browserTab (shift : bool) (d : Document) : Document :=
  let order := tabOrder d in
  let n := List.length order in
  match order with
  | [] => d
  | e0 :: _ =>
      let target :=
        match position (activeElement d) order with
        | Some p =>
            nth (Nat.modulo (if shift then p + n - 1 else p + 1) n) order e0
        | None => if shift then last order e0 else e0
        end in
      set_activeElement target d
  end.

(** A key press as the page sees it: the handler of the class first,
    then the browser's default action for Tab unless it was
    prevented. *)
Definition keypress (e : KeyboardEvent) : M unit :=
  prevented <- handleKeydown e ;;
  if negb prevented && String.eqb (key e) "Tab"
  then modifyDocument (browserTab (shiftKey e))
  else ret tt.

Definition Tab : KeyboardEvent := mkKeyboardEvent "Tab" false.
Definition ShiftTab : KeyboardEvent := mkKeyboardEvent "Tab" true.

(** ** Properties named by the specification *)

(** [currentIndex] names an element of [images] whenever the viewer is
    open on a non-empty sequence. *)
Definition index_valid (w : World) : Prop :=
  isOpen (this w) = true -> images (this w) <> [] ->
  0 <= currentIndex (this w) < len (images (this w)).

(** The arguments of a call of [open] name an element of the sequence,
    when the sequence has one. *)
Definition in_range (imgs : list Image) (startIndex : Z) : bool :=
  (len imgs =? 0) || ((0 <=? startIndex) && (startIndex <? len imgs)).

Definition call_in_range (c : Call) : bool :=
  match c with
  | CallOpen imgs startIndex => in_range imgs startIndex
  | _ => true
  end.

(** The status text in the words of the specification:
    "Image {currentIndex+1} of {items.length}: {description or 'No
    description'}". *)
Definition status_text (i : Z) (n : Z) (description : string) : string :=
  "Image " ++ num (i + 1) ++ " of " ++ num n ++ ": "
  ++ (if String.eqb description "" then "No description" else description).

(** The calls that render: [open] always, [prev] and [next] when they
    move. *)
Definition renders (c : Call) (w : World) : bool :=
  match c with
  | CallOpen _ _ => true
  | CallPrev | CallNext => negb (len (images (this w)) <=? 1)
  | _ => false
  end.

(** Where a rendering call leaves the viewer: [open] on its
    arguments, [next] and [prev] on the index one step further round
    the sequence. *)
Definition target_images (c : Call) (w : World) : list Image :=
  match c with
  | CallOpen imgs _ => imgs
  | _ => images (this w)
  end.

Definition target_index (c : Call) (w : World) : Z :=
  match c with
  | CallOpen _ startIndex => startIndex
  | CallNext =>
      Z.rem (currentIndex (this w) + 1) (len (images (this w)))
  | CallPrev =>
      Z.rem (currentIndex (this w) - 1 + len (images (this w)))
            (len (images (this w)))
  | _ => currentIndex (this w)
  end.

(** The document after a render of [image]. *)
Definition rendered (l : Lightbox) (image : Image) (d : Document) : Document :=
  set_liveRegions
    (status_text (currentIndex l) (len (images l)) (alt image)
       :: tl (liveRegions d))
    (set_captionText (or_else (alt image) "")
       (set_imageAlt
          (or_else (alt image)
             ("Image " ++ num (currentIndex l + 1) ++ " of "
                       ++ num (len (images l))))
          (set_imageSrc (src image) d))).

(** ** [initGallery]

    A gallery entry is an element of class [gallery-item]; it may or
    may not contain an [img].  [fullsize] is [img.dataset.fullsize]. *)
Record Img : Type := mkImg {
  fullsize : option string;
  img_src : string;
  img_alt : string
}.

Definition GalleryItem : Type := option Img.

(** [img.dataset.fullsize || img.src] *)
Definition media_ref (img : Img) : string :=
  match fullsize img with
  | Some s => or_else s (img_src img)
  | None => img_src img
  end.

(** The array [images] once the [forEach] of [initGallery] is over:
    one object per entry that has an [img], in document order. *)
Fixpoint collect (items : list GalleryItem) : list Image :=
  match items with
  | [] => []
  | None :: rest => collect rest
  | Some img :: rest => mkImage (media_ref img) (img_alt img) :: collect rest
  end.

(** The click handler (and the Enter and Space handler) that
    [initGallery] installs on the entry at position [index] of
    [galleryItems]: [lightbox.open(images, index)].  An entry without
    an [img] gets no handler. *)
Definition activate (items : list GalleryItem) (index : nat) : M unit :=
  match nth_error items index with
  | Some (Some _) => open (collect items) (Z.of_nat index)
  | _ => ret tt
  end.

(** ** The other listeners of [bindEvents] and [initGallery] *)

(** Where a click inside the overlay lands: on one of the three
    buttons (or the span inside it), on the overlay element itself,
    that is its backdrop, or on its content (the image or the
    caption). *)
Inductive ClickTarget : Type :=
| OnClose
| OnPrev
| OnNext
| OnBackdrop
| OnContent.

(** The click listeners of [bindEvents], in the order the event meets
    them on its way up: the button's own listener, then the listener
    of the overlay, which closes only when the overlay itself was the
    target. *)
Definition click (t : ClickTarget) : M unit :=
  match t with
  | OnClose => close
  | OnPrev => prev
  | OnNext => next
  | OnBackdrop => close
  | OnContent => ret tt
  end.

(** The keydown listener [initGallery] installs on the entry at
    position [index]. The result tells whether [e.preventDefault()]
    was called. *)
Definition item_keydown (items : list GalleryItem) (index : nat)
           (e : KeyboardEvent) : M bool :=
  match nth_error items index with
  | Some (Some _) =>
      if String.eqb (key e) "Enter" || String.eqb (key e) " "
      then open (collect items) (Z.of_nat index) ;; ret true
      else ret false
  | _ => ret false
  end.

(** The number of entries without an [img] before position [index]. *)
Definition skipped_before (items : list GalleryItem) (index : nat) : nat :=
  List.length (filter (fun it => match it with None => true | Some _ => false end)
                      (firstn index items)).

(** The object [initGallery] pushes for an [img]. *)
Definition image_of (img : Img) : Image :=
  mkImage (media_ref img) (img_alt img).

(** What the overlay shows for [image] at index [i] of [n]: the source,
    the alternative text with its fallback, the caption. *)
Definition shows (d : Document) (image : Image) (i n : Z) : Prop :=
  imageSrc d = src image
  /\ imageAlt d = (if String.eqb (alt image) ""
                  then "Image " ++ num (i + 1) ++ " of " ++ num n
                  else alt image)
  /\ captionText d = alt image.

(** Calls other than [open]. *)
Definition not_open (c : Call) : bool :=
  match c with
  | CallOpen _ _ => false
  | _ => true
  end.

(** The keys the overlay answers without closing. *)
Definition trap_key (e : KeyboardEvent) : bool :=
  String.eqb (key e) "Tab" || String.eqb (key e) "ArrowLeft"
  || String.eqb (key e) "ArrowRight".

Definition keypresses (es : list KeyboardEvent) (w : World) : World :=
  fold_left (fun w e => exec (keypress e) w) es w.

(** The overlay and the live region agree with the instance. *)
Definition in_sync (w : World) : Prop :=
  forall image,
    item_at (images (this w)) (currentIndex (this w)) = Some image ->
    shows (document w) image (currentIndex (this w)) (len (images (this w)))
    /\ hd_error (liveRegions (document w))
       = Some (status_text (currentIndex (this w)) (len (images (this w)))
                 (alt image)).

(** The overlay is shown exactly when the viewer is open, and the
    scroll of the body is locked exactly then. *)
Definition overlay_consistent (w : World) : Prop :=
  lightboxActive (document w) = isOpen (this w)
  /\ bodyOverflow (document w) = (if isOpen (this w) then "hidden" else "").

(** The viewer is open on two images or more, all three buttons are
    displayed and one of them has the focus. *)
Definition trapped (w : World) : Prop :=
  isOpen (this w) = true
  /\ focusableElements (this w) = overlayControls
  /\ prevDisplay (document w) = "flex"
  /\ nextDisplay (document w) = "flex"
  /\ In (activeElement (document w)) overlayControls.

(** ** [initGalleryFilters] *)

Module Filters.

(** A filter button with its [data-filter] attribute and whether its
    class list holds [active]; a gallery entry with its
    [data-category] attribute and its inline [display]. A missing data
    attribute reads as [undefined]. *)
Record Button : Type := mkButton {
  data_filter : option string;
  active : bool
}.

Record Entry : Type := mkEntry {
  data_category : option string;
  display : string
}.

Record Page : Type := mkPage {
  buttons : list Button;
  entries : list Entry
}.

(** [a === b] on values that are strings or [undefined]. *)
Definition same (a b : option string) : bool :=
  match a, b with
  | Some x, Some y => String.eqb x y
  | None, None => true
  | _, _ => false
  end.

Fixpoint set_nth {A : Type} (n : nat) (f : A -> A) (l : list A) : list A :=
  match l, n with
  | [], _ => []
  | x :: l', O => f x :: l'
  | x :: l', S k => x :: set_nth k f l'
  end.

(** Whether an entry is shown under [filter]. *)
Definition matches (filter : option string) (e : Entry) : bool :=
  same filter (Some "all") || same (data_category e) filter.

(** The click listener of the button at position [b]. Without such a
    button there is no listener. *)
Definition click (b : nat) (p : Page) : Page :=
  match nth_error (buttons p) b with
  | None => p
  | Some button =>
      let filter := data_filter button in
      mkPage
        (set_nth b (fun x => mkButton (data_filter x) true)
           (map (fun x => mkButton (data_filter x) false) (buttons p)))
        (map (fun e => mkEntry (data_category e)
                         (if matches filter e then "" else "none"))
           (entries p))
  end.

End Filters.

(** ** The timeline of [timeline.js] *)

Module Timeline.

(** The header of a timeline item: the attributes [init] writes, and
    the number of click listeners (and as many keydown listeners) that
    were added to it.  An attribute that is not set is [None]. *)
Record Header : Type := mkHeader {
  id : option string;
  aria_controls : option string;
  aria_expanded : option string;
  role : option string;
  tabindex : option string;
  listeners : nat
}.

(** The content of a timeline item; [active] tells whether its class
    list holds [active]. *)
Record Content : Type := mkContent {
  content_id : option string;
  aria_labelledby : option string;
  content_role : option string;
  aria_hidden : option string;
  active : bool
}.

(** An element of class [timeline-item]: its [.timeline-header], its
    [.timeline-content] and the text of its [.timeline-title], each
    possibly missing. *)
Record Item : Type := mkItem {
  header : option Header;
  content : option Content;
  title : option string
}.

(** The timelines of the page, the items of each in document order,
    and the text of the elements whose id is [timeline-live-region],
    in document order. *)
Record Page : Type := mkPage {
  timelines : list (list Item);
  live : list string
}.

(** [String(b)], what [setAttribute] stores for a boolean. *)
Definition of_bool (b : bool) : string := if b then "true" else "false".

(** [header.getAttribute('aria-expanded') === 'true'] *)
Definition is_expanded (h : Header) : bool :=
  match aria_expanded h with
  | Some v => String.eqb v "true"
  | None => false
  end.

(** The body of the [forEach] of [init()] for the item at position
    [index]: an item without a header or without a content is left
    alone. *)
Definition init_item (index : nat) (it : Item) : Item :=
  match header it, content it with
  | Some h, Some c =>
      let headerId := "timeline-header-" ++ num (Z.of_nat index) in
      let contentId := "timeline-content-" ++ num (Z.of_nat index) in
      mkItem
        (Some (mkHeader (Some headerId) (Some contentId) (Some "false")
                 (Some "button") (Some "0") (S (listeners h))))
        (Some (mkContent (Some contentId) (Some headerId) (Some "region")
                 (Some "true") (active c)))
        (title it)
  | _, _ => it
  end.

Fixpoint init_from (index : nat) (items : list Item) : list Item :=
  match items with
  | [] => []
  | it :: rest => init_item index it :: init_from (S index) rest
  end.

(** [new Timeline(container)]: the constructor runs [init()] over the
    items of the container. *)
Definition init (items : list Item) : list Item := init_from 0 items.

(** [announceChange(item, isExpanded)] on the live regions. *)
Definition announceChange (it : Item) (isExpanded : bool)
           (regions : list string) : list string :=
  let regions' := match regions with [] => [""] | _ :: _ => regions end in
  let titleText := match title it with Some t => t | None => "Item" end in
  let state := if isExpanded then "expanded" else "collapsed" in
  (titleText ++ " " ++ state) :: tl regions'.

(** [toggle(item)] *)
Definition toggle (s : Item * list string) : Item * list string :=
  let (it, regions) := s in
  match header it, content it with
  | Some h, Some c =>
      let isExpanded := is_expanded h in
      let it' :=
        mkItem
          (Some (mkHeader (id h) (aria_controls h)
                   (Some (of_bool (negb isExpanded))) (role h) (tabindex h)
                   (listeners h)))
          (Some (mkContent (content_id c) (aria_labelledby c)
                   (content_role c) (Some (of_bool isExpanded))
                   (negb (active c))))
          (title it) in
      (it', announceChange it' (negb isExpanded) regions)
  | _, _ => s
  end.

(** [expand(item)] and [collapse(item)] *)
Definition set_state (b : bool) (it : Item) : Item :=
  match header it, content it with
  | Some h, Some c =>
      mkItem
        (Some (mkHeader (id h) (aria_controls h) (Some (of_bool b))
                 (role h) (tabindex h) (listeners h)))
        (Some (mkContent (content_id c) (aria_labelledby c) (content_role c)
                 (Some (of_bool (negb b))) b))
        (title it)
  | _, _ => it
  end.

Definition expand : Item -> Item := set_state true.
Definition collapse : Item -> Item := set_state false.

(** [expandAll()] and [collapseAll()] *)
Definition expandAll (items : list Item) : list Item := map expand items.
Definition collapseAll (items : list Item) : list Item := map collapse items.

(** A click on the header of an item (or Enter or Space on it): every
    listener added to the header calls [toggle] on the item. *)
Definition click_item (s : Item * list string) : Item * list string :=
  match header (fst s) with
  | Some h => Nat.iter (listeners h) toggle s
  | None => s
  end.

Fixpoint update {A : Type} (n : nat) (x : A) (l : list A) : list A :=
  match l, n with
  | [], _ => []
  | _ :: l', O => x :: l'
  | y :: l', S k => y :: update k x l'
  end.

(** A click on the header of item [k] of timeline [t]. *)
Definition click_header (t k : nat) (p : Page) : Page :=
  match nth_error (timelines p) t with
  | None => p
  | Some items =>
      match nth_error items k with
      | None => p
      | Some it =>
          let (it', regions) := click_item (it, live p) in
          mkPage (update t (update k it' items) (timelines p)) regions
      end
  end.

(** [initTimelines()]: one [Timeline] per container, and one more over
    the first container when the page has an expand-all or a
    collapse-all button. *)
Definition initTimelines (expandAllBtn collapseAllBtn : bool) (p : Page)
  : Page :=
  let constructed := map init (timelines p) in
  mkPage
    (if expandAllBtn || collapseAllBtn
     then match constructed with
          | [] => []
          | first :: others => init first :: others
          end
     else constructed)
    (live p).

(** The click listener of the expand-all button, and of the
    collapse-all button: a new [Timeline] over every container, then
    [expandAll()] or [collapseAll()] on it. *)
Definition click_expand_all (p : Page) : Page :=
  mkPage (map (fun items => expandAll (init items)) (timelines p)) (live p).

Definition click_collapse_all (p : Page) : Page :=
  mkPage (map (fun items => collapseAll (init items)) (timelines p)) (live p).

(** The attributes of an item spell one state: [aria-expanded] is
    [true] or [false] and [aria-hidden] is its opposite. *)
Definition coherent (it : Item) : Prop :=
  match header it, content it with
  | Some h, Some c =>
      aria_expanded h = Some (of_bool (is_expanded h))
      /\ aria_hidden c = Some (of_bool (negb (is_expanded h)))
  | _, _ => True
  end.

(** Markup on which no script has run yet: no listener on any
    header. *)
Definition fresh (it : Item) : Prop :=
  match header it with
  | Some h => listeners h = O
  | None => True
  end.

(** Clicks on the expand-all ([true]) and collapse-all ([false])
    buttons, in order. *)
Definition click_buttons (clicks : list bool) (p : Page) : Page :=
  fold_left
    (fun (q : Page) (b : bool) =>
       if b then click_expand_all q else click_collapse_all q)
    clicks p.

(** The clicks land on buttons the page has. *)
Definition clickable (expandAllBtn collapseAllBtn : bool)
           (clicks : list bool) : bool :=
  forallb (fun b : bool => if b then expandAllBtn else collapseAllBtn) clicks.

(** Item [i] of timeline [t]. *)
Definition item_of (p : Page) (t i : nat) : option Item :=
  match nth_error (timelines p) t with
  | Some items => nth_error items i
  | None => None
  end.

(** The number of [Timeline] instances [initTimelines] constructs over
    timeline [t]. *)
Definition constructions (expandAllBtn collapseAllBtn : bool) (t : nat) : nat :=
  if (expandAllBtn || collapseAllBtn) && Nat.eqb t 0 then 2 else 1.

End Timeline.

(** A timeline item as the markup has it, with a header, a content and
    a title, before any script ran. *)
Definition plain_item (t : string) : Timeline.Item :=
  Timeline.mkItem
    (Some (Timeline.mkHeader None None None None None 0))
    (Some (Timeline.mkContent None None None None false))
    (Some t).

(** A page with two timelines. *)
Definition two_timelines : Timeline.Page :=
  Timeline.mkPage
    [[plain_item "1998"; plain_item "2004"]; [plain_item "2010"]] [].

(** ** The form validator (the [FormValidator] class that follows the
    timeline in [timeline.js])

    Strings are sequences of code units below 256.  In that range the
    white space of [\s] and of [trim()] is TAB, LF, VT, FF, CR, SPACE
    and NBSP. *)

Module Form.

Definition is_space (c : ascii) : bool :=
  let n := nat_of_ascii c in
  ((9 <=? n) && (n <=? 13))%nat || Nat.eqb n 32 || Nat.eqb n 160.

(** Regular expressions, as far as the source writes them: character
    classes, concatenation and repetition. [r+] is [Plus r]. *)
Inductive re : Type :=
| Empty
| Eps
| Class (p : ascii -> bool)
| Seq (r1 r2 : re)
| Star (r : re).

Definition Plus (r : re) : re := Seq r (Star r).

Fixpoint nullable (r : re) : bool :=
  match r with
  | Empty => false
  | Eps => true
  | Class _ => false
  | Seq r1 r2 => nullable r1 && nullable r2
  | Star _ => true
  end.

(** The derivatives of [r] by [c]: [r] matches [c] followed by [s]
    exactly when one of them matches [s]. *)
Fixpoint deriv (c : ascii) (r : re) : list re :=
  match r with
  | Empty => []
  | Eps => []
  | Class p => if p c then [Eps] else []
  | Seq r1 r2 =>
      (map (fun d => Seq d r2) (deriv c r1)
       ++ (if nullable r1 then deriv c r2 else []))%list
  | Star r1 => map (fun d => Seq d (Star r1)) (deriv c r1)
  end.

(** [regex.test(s)] for a pattern anchored at both ends: the whole of
    [s] is in the language of [r]. *)
Fixpoint test_all (rs : list re) (s : string) : bool :=
  match s with
  | EmptyString => existsb nullable rs
  | String c s' => test_all (flat_map (deriv c) rs) s'
  end.

Definition test (r : re) (s : string) : bool := test_all [r] s.

(** [[^\s@]] *)
Definition not_space_at (c : ascii) : bool :=
  negb (is_space c) && negb (Ascii.eqb c "@").

(** [/^[^\s@]+@[^\s@]+\.[^\s@]+$/] *)
Definition emailRegex : re :=
  Seq (Plus (Class not_space_at))
    (Seq (Class (Ascii.eqb "@"))
       (Seq (Plus (Class not_space_at))
          (Seq (Class (Ascii.eqb "."))
             (Plus (Class not_space_at))))).

(** [value.trim()] *)
Fixpoint trim_start (s : string) : string :=
  match s with
  | EmptyString => EmptyString
  | String c s' => if is_space c then trim_start s' else s
  end.

Fixpoint trim_end (s : string) : string :=
  match s with
  | EmptyString => EmptyString
  | String c s' =>
      match trim_end s' with
      | EmptyString => if is_space c then EmptyString else String c EmptyString
      | t => String c t
      end
  end.

Definition trim (s : string) : string := trim_end (trim_start s).

(** What the language of a regular expression is. *)
Inductive matches : re -> string -> Prop :=
| m_eps : matches Eps ""
| m_class (p : ascii -> bool) (c : ascii) :
    p c = true -> matches (Class p) (String c "")
| m_seq (r1 r2 : re) (s1 s2 : string) :
    matches r1 s1 -> matches r2 s2 -> matches (Seq r1 r2) (s1 ++ s2)
| m_star_nil (r : re) : matches (Star r) ""
| m_star_cons (r : re) (s1 s2 : string) :
    matches r s1 -> matches (Star r) s2 -> matches (Star r) (s1 ++ s2).

(** Every character of [s] satisfies [p]. *)
Fixpoint all_chars (p : ascii -> bool) (s : string) : bool :=
  match s with
  | EmptyString => true
  | String c s' => p c && all_chars p s'
  end.

(** The properties of an [input], [textarea] or [select] that
    [getValidationRules] reads.  [minLength] and [maxLength] are the
    numbers the DOM gives (-1 when the attribute is absent);
    [pattern] and [title] are empty when absent. *)
Record Input : Type := mkInput {
  name : string;
  type : string;
  required : bool;
  minLength : Z;
  maxLength : Z;
  pattern : string;
  title : string
}.

Record Rule : Type := mkRule {
  rule_test : string -> bool;
  message : string
}.

(** [value.length] and [!value] *)
Definition length (s : string) : Z := Z.of_nat (String.length s).
Definition is_empty (s : string) : bool := String.eqb s "".

Section Rules.

(** [new RegExp(pattern).test(value)], for the patterns of the page,
    which are taken to be well-formed. *)
Variable regexp_test : string -> string -> bool.

(** [getValidationRules(input)] *)
Definition getValidationRules (input : Input) : list Rule :=
  ((if required input
    then [mkRule (fun value => negb (is_empty (trim value)))
            "This field is required"]
    else [])
   ++ (if String.eqb (type input) "email"
       then [mkRule (fun value =>
                       if is_empty value then true else test emailRegex value)
               "Please enter a valid email address"]
       else [])
   ++ (if 0 <? minLength input
       then [mkRule (fun value =>
                       if is_empty value then true
                       else minLength input <=? length value)
               ("Must be at least " ++ num (minLength input) ++ " characters")]
       else [])
   ++ (if (0 <? maxLength input) && (maxLength input <? 524288)
       then [mkRule (fun value => length value <=? maxLength input)
               ("Must be no more than " ++ num (maxLength input)
                ++ " characters")]
       else [])
   ++ (if is_empty (pattern input) then []
       else [mkRule (fun value =>
                       if is_empty value then true
                       else regexp_test (pattern input) value)
               (if is_empty (title input)
                then "Please match the required format"
                else title input)]))%list.

(** What the page shows for a field: whether the input has the
    [error] class, its [aria-invalid] and [aria-describedby]
    attributes, and the [.form-error] elements of its [.form-group]
    (id and text) in document order.  Every input is taken to sit in a
    [.form-group] of its own. *)
Record View : Type := mkView {
  error_class : bool;
  aria_invalid : option string;
  aria_describedby : option string;
  errors : list (string * string)
}.

(** [showFieldError(field, message)] *)
Definition showFieldError (input : Input) (msg : string) (v : View) : View :=
  mkView true (Some "true") (Some (name input ++ "-error"))
         (tl (errors v) ++ [((name input ++ "-error")%string, msg)])%list.

(** [clearFieldError(field)] *)
Definition clearFieldError (v : View) : View :=
  mkView false None None (tl (errors v)).

(** The loop of [validateField]: the message of the first rule whose
    test fails. *)
Fixpoint first_failure (rules : list Rule) (value : string) : option string :=
  match rules with
  | [] => None
  | r :: rest =>
      if rule_test r value then first_failure rest value
      else Some (message r)
  end.

(** A field: the input, the rules computed for it by [init()], its
    current value and what the page shows for it. *)
Record Field : Type := mkField {
  element : Input;
  rules : list Rule;
  value : string;
  view : View
}.

(** [validateField(field)] *)
Definition validateField (f : Field) : bool * Field :=
  match first_failure (rules f) (value f) with
  | Some msg =>
      (false, mkField (element f) (rules f) (value f)
                (showFieldError (element f) msg (view f)))
  | None =>
      (true, mkField (element f) (rules f) (value f)
               (clearFieldError (view f)))
  end.


(** The field [init()] records for an input. *)
Definition field_of (input : Input) (v : string) (w : View) : Field :=
  mkField input (getValidationRules input) v w.

End Rules.

End Form.

(** A required e-mail input without further constraints. *)
Definition email_input : Form.Input :=
  Form.mkInput "email" "email" true (-1) (-1) "" "".


Definition mail_field : Form.Field :=
  Form.field_of (fun _ _ => true) email_input "ravi@example"
    (Form.mkView false None None []).

(** ** The mobile navigation of [main.js] *)

Module Nav.

(** The toggle button's [aria-expanded] attribute ([None] when the
    markup has none) and whether the menu's class list holds
    [active]. *)
Record Bar : Type := mkBar {
  aria_expanded : option string;
  menu_active : bool
}.

(** [String(b)], what [setAttribute] stores for a boolean. *)
Definition of_bool (b : bool) : string := if b then "true" else "false".

Definition State : Type := (Bar * Document)%type.

(** [navToggle.getAttribute('aria-expanded') === 'true'] *)
Definition expanded (bar : Bar) : bool :=
  match aria_expanded bar with
  | Some v => String.eqb v "true"
  | None => false
  end.

(** [toggleNav()] *)
Definition toggleNav (s : State) : State :=
  let (bar, d) := s in
  let isExpanded := expanded bar in
  let bar' := mkBar (Some (of_bool (negb isExpanded)))
                    (negb (menu_active bar)) in
  (bar', set_bodyOverflow (if menu_active bar' then "hidden" else "") d).

(** [closeNav()] *)
Definition closeNav (s : State) : State :=
  let (bar, d) := s in
  (mkBar (Some "false") false, set_bodyOverflow "" d).

(** Where a click lands, as far as the listeners of [initMobileNav]
    can tell: on the toggle button, on a link of the menu, elsewhere
    inside the menu, or outside both. *)
Inductive Target : Type :=
| OnToggle
| OnLink
| InMenu
| Outside.

(** The listeners a click meets, the element's own before the
    document's. *)
Definition click (t : Target) (s : State) : State :=
  match t with
  | OnToggle => toggleNav s
  | OnLink => closeNav s
  | InMenu => s
  | Outside => closeNav s
  end.

(** The keydown listener on the document. *)
Definition keydown (e : KeyboardEvent) (s : State) : State :=
  if String.eqb (key e) "Escape" then closeNav s else s.

Inductive Event : Type :=
| Click (t : Target)
| Keydown (e : KeyboardEvent).

Definition handle (ev : Event) (s : State) : State :=
  match ev with
  | Click t => click t s
  | Keydown e => keydown e s
  end.

Definition handle_all (evs : list Event) (s : State) : State :=
  fold_left (fun s ev => handle ev s) evs s.

(** [s.endsWith(suffix)] *)
Fixpoint ends_with (s suffix : string) : bool :=
  String.eqb s suffix
  || match s with
     | EmptyString => false
     | String _ s' => ends_with s' suffix
     end.

(** Whether [setActiveNavLink] leaves the [active] class on a link,
    given the path of the page and the link's [href] attribute
    ([None] when it has none). *)
Definition is_active (currentPath : string) (href : option string) : bool :=
  match href with
  | None => false
  | Some h =>
      if String.eqb h "" then false
      else ends_with currentPath h
           || (String.eqb h "index.html"
               && (ends_with currentPath "/" || ends_with currentPath "/en/"
                   || ends_with currentPath "/kn/"))
  end.

(** The bar and the body agree: the attribute reads as expanded
    exactly when the menu is open, and the scroll is locked exactly
    then. *)
Definition coherent (s : State) : Prop :=
  expanded (fst s) = menu_active (fst s)
  /\ bodyOverflow (snd s) = (if menu_active (fst s) then "hidden" else "").

End Nav.

(** ** A page that runs [main.js] and [gallery.js]

    Both scripts listen on the same document and write the same
    [document.body.style.overflow]. A click on a gallery entry or
    inside the overlay is outside the navigation, so after the
    listener of the gallery the click reaches the document listener of
    [initMobileNav] (installed when the page has a toggle and a menu),
    which calls [closeNav()]. *)
Definition Site : Type := (Nav.Bar * World)%type.

Definition nav_on_site (f : Nav.State -> Nav.State) (s : Site) : Site :=
  let (bar, w) := s in
  let (bar', d') := f (bar, document w) in
  (bar', mkWorld (this w) d').

Definition gallery_on_site {A : Type} (m : M A) (s : Site) : Site :=
  let (bar, w) := s in (bar, exec m w).

(** A click on the gallery entry at position [index]. *)
Definition click_entry (items : list GalleryItem) (index : nat) (s : Site)
  : Site :=
  nav_on_site (Nav.click Nav.Outside)
    (gallery_on_site (activate items index) s).

(** Enter or Space on the gallery entry at position [index]: the
    keydown listeners of the entry, of the viewer and of the
    navigation, in that order. *)
Definition keydown_entry (items : list GalleryItem) (index : nat)
           (e : KeyboardEvent) (s : Site) : Site :=
  nav_on_site (Nav.keydown e)
    (gallery_on_site (handleKeydown e)
       (gallery_on_site (item_keydown items index e) s)).

(** A click inside the overlay. *)
Definition click_overlay (t : ClickTarget) (s : Site) : Site :=
  nav_on_site (Nav.click Nav.Outside) (gallery_on_site (click t) s).

(** ** The gallery of the specification's scenarios *)

Definition three_images : list Image :=
  [mkImage "a.jpg" "A"; mkImage "b.jpg" "B"; mkImage "c.jpg" "C"].

Definition one_image : list Image := [mkImage "a.jpg" "A"].

(** A page with three gallery entries; the second one has the focus. *)
Definition gallery_page : Document := page (PageElem 1) [0%nat; 1%nat; 2%nat].

(** Scenario A: the second of three entries was activated. *)
Definition opened_on_B : World :=
  exec (open three_images 1) (new_Lightbox gallery_page).

(** Scenario B: the only entry of a gallery was activated. *)
Definition opened_single : World :=
  exec (open one_image 0) (new_Lightbox (page (PageElem 0) [0%nat])).

(** There is at most one live region in the document. *)
Definition sink_single (w : World) : Prop :=
  (List.length (liveRegions (document w)) <= 1)%nat.

(** The neighbour of an overlay button in the ring close, previous,
    next: what a closed focus loop over the three buttons does with a
    Tab ([shift] false) or a Shift+Tab ([shift] true). *)
Definition ring_step (shift : bool) (a : Element) : Element :=
  match a, shift with
  | CloseBtn, false => PrevBtn
  | PrevBtn, false => NextBtn
  | NextBtn, false => CloseBtn
  | CloseBtn, true => NextBtn
  | PrevBtn, true => CloseBtn
  | NextBtn, true => PrevBtn
  | _, _ => a
  end.

(** The two ends of the ring: Shift+Tab on the first button and Tab on
    the last one, where the browser alone would leave the overlay. *)
Definition ring_end (shift : bool) (a : Element) : bool :=
  match a, shift with
  | CloseBtn, true | NextBtn, false => true
  | _, _ => false
  end.

(** * Proofs *)

(** Unfolding of the monad only: the strings and the arithmetic of the
    methods stay as the source writes them. *)
Ltac mred :=
  cbv beta iota zeta delta
    [exec eval bind ret getThis getDocument modifyThis modifyDocument];
  cbn [this document fst snd].

(** ** Equality of elements *)

Lemma Element_eqb_eq (a b : Element) : Element_eqb a b = true <-> a = b.
Proof.
  destruct a, b; simpl; split; intro H; try congruence; try discriminate.
  - apply Nat.eqb_eq in H. now subst.
  - injection H as ->. apply Nat.eqb_refl.
Qed.

Lemma Element_eqb_refl (a : Element) : Element_eqb a a = true.
Proof. now apply Element_eqb_eq. Qed.

(** ** Indexing *)

Lemma len_nonneg {A : Type} (l : list A) : 0 <= len l.
Proof. unfold len. lia. Qed.

Lemma len_nil_iff {A : Type} (l : list A) : len l = 0 <-> l = [].
Proof.
  unfold len. destruct l; simpl; split; intro H; try reflexivity;
    try discriminate; lia.
Qed.

Lemma item_at_Some {A : Type} (l : list A) (i : Z) :
  0 <= i < len l <-> exists a, item_at l i = Some a.
Proof.
  unfold item_at, len. split.
  - intros [H0 H1]. destruct (Z.ltb_spec i 0); [lia|].
    destruct (nth_error l (Z.to_nat i)) eqn:E; [eauto|].
    apply nth_error_None in E. lia.
  - intros [a H]. destruct (Z.ltb_spec i 0); [discriminate|].
    assert (Hn : nth_error l (Z.to_nat i) <> None) by congruence.
    apply nth_error_Some in Hn. lia.
Qed.

Lemma item_at_None {A : Type} (l : list A) (i : Z) :
  i < 0 \/ len l <= i -> item_at l i = None.
Proof.
  intro H. destruct (item_at l i) eqn:E; [|reflexivity].
  assert (0 <= i < len l) by (apply item_at_Some; eauto). lia.
Qed.

Lemma or_else_eqb (s fallback : string) :
  or_else s fallback = if String.eqb s "" then fallback else s.
Proof. destruct s; reflexivity. Qed.

(** ** What each method does to the instance and to the document *)

Lemma announce_eq (message : string) (w : World) :
  announce message w
  = (tt, mkWorld (this w)
           (set_liveRegions (message :: tl (liveRegions (document w)))
              (document w))).
Proof.
  unfold announce. mred.
  destruct (liveRegions (document w)) eqn:E; mred; [|now rewrite E].
  reflexivity.
Qed.

Lemma updateImage_eq (w : World) :
  updateImage w
  = (tt, match item_at (images (this w)) (currentIndex (this w)) with
         | None => w
         | Some image => mkWorld (this w) (rendered (this w) image (document w))
         end).
Proof.
  unfold updateImage. mred.
  destruct (item_at _ _) as [image|]; [|reflexivity].
  mred. rewrite announce_eq. unfold rendered, status_text.
  now rewrite (or_else_eqb (alt image) "No description").
Qed.

Lemma updateImage_this (w : World) : this (exec updateImage w) = this w.
Proof.
  unfold exec. rewrite updateImage_eq. cbn [snd].
  now destruct (item_at _ _).
Qed.

Lemma open_eq (imgs : list Image) (startIndex : Z) (w : World) :
  open imgs startIndex w
  = (tt,
     let l1 := set_focusedElementBeforeOpen (Some (activeElement (document w)))
                 (set_currentIndex startIndex (set_images imgs (this w))) in
     let d1 := match item_at imgs startIndex with
               | None => document w
               | Some image => rendered l1 image (document w)
               end in
     let display := if len imgs <=? 1 then "none" else "flex" in
     mkWorld (set_isOpen true l1)
       (set_nextDisplay display
          (set_prevDisplay display
             (set_activeElement CloseBtn
                (set_bodyOverflow "hidden" (set_lightboxActive true d1)))))).
Proof.
  unfold open, updateNavVisibility, focus. mred.
  rewrite updateImage_eq. mred.
  cbn [images currentIndex set_images set_currentIndex
       set_focusedElementBeforeOpen].
  destruct (item_at imgs startIndex); reflexivity.
Qed.

Lemma close_eq (w : World) :
  close w
  = (tt,
     let d1 := set_bodyOverflow "" (set_lightboxActive false (document w)) in
     mkWorld (set_isOpen false (this w))
       match focusedElementBeforeOpen (this w) with
       | Some e => if focusable (document w) e then set_activeElement e d1
                   else d1
       | None => d1
       end).
Proof.
  unfold close, focus. mred.
  cbn [focusedElementBeforeOpen set_isOpen].
  destruct (focusedElementBeforeOpen (this w)) as [e|]; mred; [|reflexivity].
  destruct e; reflexivity.
Qed.

Lemma next_eq (w : World) :
  next w
  = (tt,
     if len (images (this w)) <=? 1 then w
     else
       exec updateImage
         (mkWorld
            (set_currentIndex
               (Z.rem (currentIndex (this w) + 1) (len (images (this w))))
               (this w))
            (document w))).
Proof.
  unfold next. mred. destruct (_ <=? 1); [reflexivity|].
  mred. now rewrite updateImage_eq.
Qed.

Lemma prev_eq (w : World) :
  prev w
  = (tt,
     if len (images (this w)) <=? 1 then w
     else
       exec updateImage
         (mkWorld
            (set_currentIndex
               (Z.rem (currentIndex (this w) - 1 + len (images (this w)))
                      (len (images (this w))))
               (this w))
            (document w))).
Proof.
  unfold prev. mred. destruct (_ <=? 1); [reflexivity|].
  mred. now rewrite updateImage_eq.
Qed.

Lemma next_this (w : World) :
  this (exec next w)
  = if len (images (this w)) <=? 1 then this w
    else set_currentIndex
           (Z.rem (currentIndex (this w) + 1) (len (images (this w))))
           (this w).
Proof.
  unfold exec at 1. rewrite next_eq. cbn [snd].
  destruct (_ <=? 1); [reflexivity|]. now rewrite updateImage_this.
Qed.

Lemma prev_this (w : World) :
  this (exec prev w)
  = if len (images (this w)) <=? 1 then this w
    else set_currentIndex
           (Z.rem (currentIndex (this w) - 1 + len (images (this w)))
                  (len (images (this w))))
           (this w).
Proof.
  unfold exec at 1. rewrite prev_eq. cbn [snd].
  destruct (_ <=? 1); [reflexivity|]. now rewrite updateImage_this.
Qed.

Lemma trapFocus_this (e : KeyboardEvent) (w : World) :
  this (exec (trapFocus e) w) = this w.
Proof.
  unfold trapFocus, focus_entry, focus. mred.
  destruct (shiftKey e), (is_element _ _); mred; try reflexivity;
    destruct (item_at _ _); reflexivity.
Qed.

Lemma exec_times_S (n : nat) (m : M unit) (w : World) :
  exec (times (S n) m) w = exec (times n m) (exec m w).
Proof. cbn [times]. mred. now destruct (m w). Qed.

(** ** Wraparound navigation *)

Section Wraparound.

Variable n : Z.
Hypothesis n_ge_2 : 2 <= n.

Lemma rem_succ (i : Z) : 0 <= i < n -> Z.rem (i + 1) n = (i + 1) mod n.
Proof. intro H. apply Z.rem_mod_nonneg; lia. Qed.

Lemma rem_pred (i : Z) : 0 <= i < n -> Z.rem (i - 1 + n) n = (i - 1) mod n.
Proof.
  intro H. rewrite Z.rem_mod_nonneg by lia.
  replace (i - 1 + n) with (i - 1 + 1 * n) by lia.
  apply Z.mod_add. lia.
Qed.

Lemma times_next_this (k : nat) :
  forall w, len (images (this w)) = n ->
    0 <= currentIndex (this w) < n ->
    this (exec (times k next) w)
    = set_currentIndex ((currentIndex (this w) + Z.of_nat k) mod n) (this w).
Proof.
  induction k as [|k IH]; intros w Hn Hi.
  - cbn [times]. mred. rewrite Z.add_0_r, Z.mod_small by lia.
    now destruct (this w).
  - rewrite exec_times_S.
    assert (Hs : this (exec next w)
                 = set_currentIndex ((currentIndex (this w) + 1) mod n)
                     (this w)).
    { rewrite next_this, Hn. destruct (Z.leb_spec n 1); [lia|].
      now rewrite rem_succ. }
    rewrite IH; rewrite Hs; cbn [images currentIndex set_currentIndex].
    + unfold set_currentIndex; cbn. f_equal.
      rewrite Zplus_mod_idemp_l. f_equal. lia.
    + assumption.
    + apply Z.mod_pos_bound; lia.
Qed.

Lemma times_prev_this (k : nat) :
  forall w, len (images (this w)) = n ->
    0 <= currentIndex (this w) < n ->
    this (exec (times k prev) w)
    = set_currentIndex ((currentIndex (this w) - Z.of_nat k) mod n) (this w).
Proof.
  induction k as [|k IH]; intros w Hn Hi.
  - cbn [times]. mred. rewrite Z.sub_0_r, Z.mod_small by lia.
    now destruct (this w).
  - rewrite exec_times_S.
    assert (Hs : this (exec prev w)
                 = set_currentIndex ((currentIndex (this w) - 1) mod n)
                     (this w)).
    { rewrite prev_this, Hn. destruct (Z.leb_spec n 1); [lia|].
      now rewrite rem_pred. }
    rewrite IH; rewrite Hs; cbn [images currentIndex set_currentIndex].
    + unfold set_currentIndex; cbn. f_equal.
      rewrite Zminus_mod_idemp_l. f_equal. lia.
    + assumption.
    + apply Z.mod_pos_bound; lia.
Qed.

End Wraparound.

(** C5. On a sequence of [n >= 2] images and from any index in
    [0, n), [n] calls of [next()] bring [currentIndex] back to where it
    was, and so do [n] calls of [prev()]. *)
Theorem next_prev_cyclic (w : World) :
  2 <= len (images (this w)) ->
  0 <= currentIndex (this w) < len (images (this w)) ->
  currentIndex (this (exec (times (List.length (images (this w))) next) w))
  = currentIndex (this w)
  /\ currentIndex (this (exec (times (List.length (images (this w))) prev) w))
     = currentIndex (this w).
Proof.
  intros Hn Hi. set (n := len (images (this w))) in *.
  rewrite (times_next_this n Hn), (times_prev_this n Hn) by auto.
  cbn [currentIndex set_currentIndex]. fold (len (images (this w))). fold n.
  split.
  - replace (currentIndex (this w) + n) with (currentIndex (this w) + 1 * n)
      by lia.
    rewrite Z.mod_add by lia. apply Z.mod_small; lia.
  - replace (currentIndex (this w) - n) with (currentIndex (this w) + (-1) * n)
      by lia.
    rewrite Z.mod_add by lia. apply Z.mod_small; lia.
Qed.

Lemma next_prev_cyclic_witness :
  (2 <= len (images (this opened_on_B))
   /\ 0 <= currentIndex (this opened_on_B) < len (images (this opened_on_B)))
  /\ currentIndex (this (exec (times 3 next) opened_on_B)) = 1
  /\ currentIndex (this (exec (times 3 prev) opened_on_B)) = 1.
Proof.
  assert (H2 : 2 <= len (images (this opened_on_B))) by (vm_compute; discriminate).
  assert (Hi : 0 <= currentIndex (this opened_on_B)
               < len (images (this opened_on_B)))
    by (vm_compute; intuition discriminate).
  split; [exact (conj H2 Hi)|].
  exact (next_prev_cyclic opened_on_B H2 Hi).
Defined.

(** ** Navigation on at most one image *)

(** C7. On a sequence of one image, or of none, [next()] and [prev()]
    return without any effect: the instance and the document, hence the
    index, the rendered image and the live region, are what they
    were. *)
Theorem next_prev_noop (w : World) :
  len (images (this w)) <= 1 ->
  next w = (tt, w) /\ prev w = (tt, w).
Proof.
  intro H. rewrite next_eq, prev_eq.
  destruct (Z.leb_spec (len (images (this w))) 1); [auto|lia].
Qed.

Lemma next_prev_noop_witness :
  len (images (this opened_single)) <= 1
  /\ next opened_single = (tt, opened_single)
  /\ prev opened_single = (tt, opened_single).
Proof.
  assert (H : len (images (this opened_single)) <= 1)
    by (vm_compute; discriminate).
  split; [exact H|]. exact (next_prev_noop opened_single H).
Defined.

(** ** Keys while the viewer is closed *)

(** C10. While [isOpen] is false, [handleKeydown] returns at once for
    every key: the instance and the document are unchanged (so nothing
    is announced and the focus stays where it is) and the default
    action of the key is not prevented. *)
Theorem handleKeydown_closed (e : KeyboardEvent) (w : World) :
  isOpen (this w) = false ->
  handleKeydown e w = (false, w).
Proof.
  intro H. unfold handleKeydown. mred. now rewrite H.
Qed.

Lemma handleKeydown_closed_witness :
  isOpen (this (new_Lightbox gallery_page)) = false
  /\ handleKeydown (mkKeyboardEvent "Escape" false) (new_Lightbox gallery_page)
     = (false, new_Lightbox gallery_page).
Proof.
  split; [reflexivity|].
  apply (handleKeydown_closed (mkKeyboardEvent "Escape" false)
           (new_Lightbox gallery_page)).
  reflexivity.
Defined.

(** ** The index invariant *)

Lemma open_this (imgs : list Image) (startIndex : Z) (w : World) :
  this (exec (open imgs startIndex) w)
  = mkLightbox imgs startIndex true (Some (activeElement (document w)))
      (focusableElements (this w)).
Proof. unfold exec. now rewrite open_eq. Qed.

Lemma close_this (w : World) :
  this (exec close w) = set_isOpen false (this w).
Proof. unfold exec. now rewrite close_eq. Qed.

Lemma handleKeydown_exec (e : KeyboardEvent) (w : World) :
  exec (handleKeydown e) w
  = if negb (isOpen (this w)) then w
    else if String.eqb (key e) "Escape" then exec close w
    else if String.eqb (key e) "ArrowLeft" then exec prev w
    else if String.eqb (key e) "ArrowRight" then exec next w
    else if String.eqb (key e) "Tab" then exec (trapFocus e) w
    else w.
Proof.
  unfold handleKeydown. mred.
  destruct (negb _); [reflexivity|].
  do 3 (destruct (String.eqb (key e) _);
        [mred; now destruct (_ w)|]).
  now destruct (String.eqb (key e) _).
Qed.

Lemma call_keydown_exec (e : KeyboardEvent) (w : World) :
  exec (call (CallKeydown e)) w = exec (handleKeydown e) w.
Proof. cbn [call]. mred. now destruct (handleKeydown e w). Qed.

Lemma index_valid_open (imgs : list Image) (startIndex : Z) (w : World) :
  in_range imgs startIndex = true ->
  index_valid (exec (open imgs startIndex) w).
Proof.
  unfold in_range, index_valid. rewrite open_this. cbn [images currentIndex].
  intros H _ Hne.
  apply orb_true_iff in H as [H|H].
  - apply Z.eqb_eq, len_nil_iff in H. contradiction.
  - apply andb_true_iff in H as [H0 H1].
    apply Z.leb_le in H0. apply Z.ltb_lt in H1. lia.
Qed.

Lemma index_valid_close (w : World) : index_valid (exec close w).
Proof.
  unfold index_valid. rewrite close_this. cbn [isOpen set_isOpen].
  discriminate.
Qed.

Lemma index_valid_next (w : World) :
  index_valid w -> index_valid (exec next w).
Proof.
  unfold index_valid. rewrite next_this.
  destruct (Z.leb_spec (len (images (this w))) 1) as [|Hn]; [auto|].
  cbn [isOpen images currentIndex set_currentIndex]. intros H Ho Hne.
  specialize (H Ho Hne).
  rewrite (rem_succ (len (images (this w)))) by lia.
  apply Z.mod_pos_bound. lia.
Qed.

Lemma index_valid_prev (w : World) :
  index_valid w -> index_valid (exec prev w).
Proof.
  unfold index_valid. rewrite prev_this.
  destruct (Z.leb_spec (len (images (this w))) 1) as [|Hn]; [auto|].
  cbn [isOpen images currentIndex set_currentIndex]. intros H Ho Hne.
  specialize (H Ho Hne).
  rewrite (rem_pred (len (images (this w)))) by lia.
  apply Z.mod_pos_bound. lia.
Qed.

Lemma index_valid_handleKeydown (e : KeyboardEvent) (w : World) :
  index_valid w -> index_valid (exec (handleKeydown e) w).
Proof.
  intro H. rewrite handleKeydown_exec.
  destruct (negb _); [assumption|].
  destruct (String.eqb _ _); [apply index_valid_close|].
  destruct (String.eqb _ _); [now apply index_valid_prev|].
  destruct (String.eqb _ _); [now apply index_valid_next|].
  destruct (String.eqb _ _); [|assumption].
  unfold index_valid. now rewrite trapFocus_this.
Qed.

Lemma index_valid_call (c : Call) (w : World) :
  call_in_range c = true -> index_valid w -> index_valid (exec (call c) w).
Proof.
  destruct c; cbn [call_in_range]; intros Hc H.
  - now apply index_valid_open.
  - apply index_valid_close.
  - now apply index_valid_prev.
  - now apply index_valid_next.
  - rewrite call_keydown_exec. now apply index_valid_handleKeydown.
Qed.

Lemma index_valid_run (cs : list Call) :
  forall w, forallb call_in_range cs = true ->
    index_valid w -> index_valid (run cs w).
Proof.
  induction cs as [|c cs IH]; intros w Hcs H; [assumption|].
  cbn [forallb] in Hcs. apply andb_true_iff in Hcs as [Hc Hcs].
  cbn [run fold_left]. apply IH; [assumption|].
  now apply index_valid_call.
Qed.

Lemma index_valid_new (d : Document) : index_valid (new_Lightbox d).
Proof. unfold index_valid. cbn. discriminate. Qed.

(** C1, as the code has it. From a fresh viewer, after any sequence of
    calls of [open], [close], [prev], [next] and [handleKeydown] in
    which every [open] is given a start index inside its non-empty
    sequence (or an empty sequence), [currentIndex] is a valid index
    into [images] whenever the viewer is open on a non-empty
    sequence. *)
Theorem index_valid_reachable (d : Document) (cs : list Call) :
  forallb call_in_range cs = true ->
  index_valid (run cs (new_Lightbox d)).
Proof.
  intro H. apply index_valid_run; [assumption|apply index_valid_new].
Qed.

Lemma index_valid_reachable_witness :
  forallb call_in_range
    [CallOpen three_images 1; CallNext; CallNext; CallPrev; CallClose;
     CallOpen one_image 0; CallKeydown (mkKeyboardEvent "ArrowLeft" false)]
  = true
  /\ index_valid
       (run [CallOpen three_images 1; CallNext; CallNext; CallPrev; CallClose;
             CallOpen one_image 0;
             CallKeydown (mkKeyboardEvent "ArrowLeft" false)]
            (new_Lightbox gallery_page)).
Proof.
  split; [reflexivity|].
  apply (index_valid_reachable gallery_page). reflexivity.
Defined.

(** C1, as the specification states it, fails: [open] stores the start
    index it is given, so a caller's index 5 into a sequence of one
    image leaves the viewer open on an index that names no image. *)
Lemma index_valid_open_out_of_range :
  ~ index_valid (run [CallOpen one_image 5] (new_Lightbox gallery_page)).
Proof.
  unfold index_valid. vm_compute. intro H.
  destruct (H eq_refl) as [_ H1]; [discriminate|]. discriminate H1.
Qed.

(** ** The start index [initGallery] passes

    The handler of an entry passes the entry's position among all
    entries, while [images] holds the entries with an [img] only: the
    two agree as long as no entry before it was skipped. *)

Lemma collect_all (items : list GalleryItem) :
  Forall (fun it => it <> None) items ->
  List.length (collect items) = List.length items.
Proof.
  induction 1 as [|[img|] items Hx _ IH]; cbn [collect List.length];
    [reflexivity|now rewrite IH|contradiction].
Qed.

Lemma activate_in_range (items : list GalleryItem) (index : nat) (w : World) :
  Forall (fun it => it <> None) items ->
  index_valid (exec (activate items index) w) \/ exec (activate items index) w = w.
Proof.
  intro Hall. unfold activate.
  destruct (nth_error items index) as [[img|]|] eqn:E; try (now right).
  left. apply index_valid_open. unfold in_range, len.
  rewrite (collect_all _ Hall).
  assert (index < List.length items)%nat
    by (apply nth_error_Some; congruence).
  apply orb_true_iff. right. apply andb_true_iff. split.
  - apply Z.leb_le. lia.
  - apply Z.ltb_lt. lia.
Qed.

Example activate_after_skipped_entry :
  let items := [None; Some (mkImg None "a.jpg" "A")] in
  let w := exec (activate items 1) (new_Lightbox gallery_page) in
  images (this w) = one_image /\ currentIndex (this w) = 1
  /\ isOpen (this w) = true.
Proof. repeat split. Qed.

(** ** [open] on arguments that name no image *)

Lemma open_document_skip (imgs : list Image) (startIndex : Z) (w : World) :
  item_at imgs startIndex = None ->
  document (exec (open imgs startIndex) w)
  = let display := if len imgs <=? 1 then "none" else "flex" in
    set_nextDisplay display
      (set_prevDisplay display
         (set_activeElement CloseBtn
            (set_bodyOverflow "hidden"
               (set_lightboxActive true (document w))))).
Proof. intro H. unfold exec. rewrite open_eq. cbn [snd document]. now rewrite H. Qed.

(** C2, as the specification states it, fails: [open] on an empty
    sequence leaves the viewer open. *)
Lemma open_empty_opens :
  isOpen (this (exec (open [] 0) (new_Lightbox gallery_page))) <> false.
Proof. vm_compute. discriminate. Qed.

(** C2, as the code has it. [open] on an empty sequence opens the
    viewer: [isOpen] is true, [images] is empty and [currentIndex] is
    the start index given; nothing is rendered and nothing is
    announced, the overlay is shown and both navigation buttons are
    hidden. *)
Theorem open_empty (startIndex : Z) (w : World) :
  let w' := exec (open [] startIndex) w in
  isOpen (this w') = true
  /\ images (this w') = []
  /\ currentIndex (this w') = startIndex
  /\ imageSrc (document w') = imageSrc (document w)
  /\ imageAlt (document w') = imageAlt (document w)
  /\ captionText (document w') = captionText (document w)
  /\ liveRegions (document w') = liveRegions (document w)
  /\ lightboxActive (document w') = true
  /\ prevDisplay (document w') = "none"
  /\ nextDisplay (document w') = "none".
Proof.
  cbv zeta. rewrite open_this, open_document_skip.
  - cbn. repeat split; reflexivity.
  - apply item_at_None. cbn. lia.
Qed.

(** C3, as the specification states it, fails: the start index 5 into
    a sequence of one image is stored as it is, not as 0, and names no
    image. *)
Lemma open_out_of_range_not_clamped :
  let w' := exec (open one_image 5) (new_Lightbox gallery_page) in
  currentIndex (this w') <> 0
  /\ ~ (0 <= currentIndex (this w') < len (images (this w'))).
Proof.
  vm_compute. split; [discriminate|].
  intros [_ H]. discriminate H.
Qed.

(** C3, as the code has it. On a non-empty sequence and a start index
    outside it, [open] returns without failing, stores the start index
    unchanged in [currentIndex] and opens the viewer; nothing is
    rendered and nothing is announced. *)
Theorem open_out_of_range (imgs : list Image) (startIndex : Z) (w : World) :
  imgs <> [] ->
  startIndex < 0 \/ len imgs <= startIndex ->
  let w' := exec (open imgs startIndex) w in
  open imgs startIndex w = (tt, w')
  /\ currentIndex (this w') = startIndex
  /\ images (this w') = imgs
  /\ isOpen (this w') = true
  /\ imageSrc (document w') = imageSrc (document w)
  /\ imageAlt (document w') = imageAlt (document w)
  /\ captionText (document w') = captionText (document w)
  /\ liveRegions (document w') = liveRegions (document w).
Proof.
  intros _ Hout. cbv zeta.
  split; [unfold exec; now destruct (open imgs startIndex w) as [[] ?]|].
  rewrite open_this, open_document_skip by now apply item_at_None.
  cbn. repeat split; reflexivity.
Qed.

Lemma open_out_of_range_witness :
  (one_image <> [] /\ (5 < 0 \/ len one_image <= 5))
  /\ currentIndex
       (this (exec (open one_image 5) (new_Lightbox gallery_page))) = 5
  /\ liveRegions
       (document (exec (open one_image 5) (new_Lightbox gallery_page))) = [].
Proof.
  assert (H1 : one_image <> []) by discriminate.
  assert (H2 : 5 < 0 \/ len one_image <= 5)
    by (right; vm_compute; discriminate).
  split; [exact (conj H1 H2)|].
  destruct (open_out_of_range one_image 5 (new_Lightbox gallery_page) H1 H2)
    as (_ & Hi & _ & _ & _ & _ & _ & Hl).
  split; [exact Hi|exact Hl].
Defined.

(** ** The stored focus *)

(** C6, as the specification states it, fails: after [open] and
    [close] the instance still holds the element that had the focus
    before [open]. *)
Lemma close_keeps_reference :
  focusedElementBeforeOpen
    (this (run [CallOpen three_images 1; CallClose]
               (new_Lightbox gallery_page)))
  <> None.
Proof. vm_compute. discriminate. Qed.

(** C6, as the code has it. [close()] gives the focus back to the
    stored element, when there is one and it can take the focus, and
    leaves the stored reference as it was. *)
Theorem close_restores_and_keeps (w : World) :
  focusedElementBeforeOpen (this (exec close w))
  = focusedElementBeforeOpen (this w)
  /\ activeElement (document (exec close w))
     = match focusedElementBeforeOpen (this w) with
       | Some e => if focusable (document w) e then e
                   else activeElement (document w)
       | None => activeElement (document w)
       end.
Proof.
  unfold exec. rewrite close_eq. cbn [snd this document].
  split; [reflexivity|].
  destruct (focusedElementBeforeOpen (this w)) as [e|]; [|reflexivity].
  now destruct (focusable (document w) e).
Qed.

(** ** The live region *)

Lemma updateImage_liveRegions (w : World) :
  liveRegions (document (exec updateImage w))
  = match item_at (images (this w)) (currentIndex (this w)) with
    | None => liveRegions (document w)
    | Some image =>
        status_text (currentIndex (this w)) (len (images (this w))) (alt image)
          :: tl (liveRegions (document w))
    end.
Proof.
  unfold exec. rewrite updateImage_eq. cbn [snd].
  now destruct (item_at _ _).
Qed.

Lemma open_liveRegions (imgs : list Image) (startIndex : Z) (w : World) :
  liveRegions (document (exec (open imgs startIndex) w))
  = match item_at imgs startIndex with
    | None => liveRegions (document w)
    | Some image =>
        status_text startIndex (len imgs) (alt image)
          :: tl (liveRegions (document w))
    end.
Proof.
  unfold exec. rewrite open_eq. cbn [snd document].
  now destruct (item_at _ _).
Qed.

Lemma close_liveRegions (w : World) :
  liveRegions (document (exec close w)) = liveRegions (document w).
Proof.
  unfold exec. rewrite close_eq. cbn [snd document].
  destruct (focusedElementBeforeOpen _) as [e|]; [|reflexivity].
  now destruct (focusable _ e).
Qed.

Lemma trapFocus_liveRegions (e : KeyboardEvent) (w : World) :
  liveRegions (document (exec (trapFocus e) w)) = liveRegions (document w).
Proof.
  unfold trapFocus, focus_entry, focus. mred.
  destruct (shiftKey e), (is_element _ _); mred; try reflexivity;
    (destruct (item_at _ _) as [x|]; mred; [|reflexivity]);
    now destruct (focusable _ x).
Qed.

Lemma sink_single_tl (w w' : World) (message : string) :
  sink_single w ->
  liveRegions (document w') = message :: tl (liveRegions (document w)) ->
  liveRegions (document w') = [message].
Proof.
  unfold sink_single. intros H ->.
  destruct (liveRegions (document w)) as [|? [|? ?]]; cbn in *;
    try reflexivity; lia.
Qed.

Lemma sink_single_updateImage (w : World) :
  sink_single w -> sink_single (exec updateImage w).
Proof.
  intro H. unfold sink_single. rewrite updateImage_liveRegions.
  destruct (item_at _ _); [|assumption].
  unfold sink_single in H.
  destruct (liveRegions (document w)); cbn in *; lia.
Qed.

Lemma sink_single_next (w : World) : sink_single w -> sink_single (exec next w).
Proof.
  intro H. unfold exec at 1. rewrite next_eq. cbn [snd].
  destruct (_ <=? 1); [assumption|]. now apply sink_single_updateImage.
Qed.

Lemma sink_single_prev (w : World) : sink_single w -> sink_single (exec prev w).
Proof.
  intro H. unfold exec at 1. rewrite prev_eq. cbn [snd].
  destruct (_ <=? 1); [assumption|]. now apply sink_single_updateImage.
Qed.

Lemma sink_single_call (c : Call) (w : World) :
  sink_single w -> sink_single (exec (call c) w).
Proof.
  intro H. destruct c; cbn [call].
  - unfold sink_single in *. rewrite open_liveRegions.
    destruct (item_at _ _); [|assumption].
    destruct (liveRegions (document w)); cbn in *; lia.
  - unfold sink_single. now rewrite close_liveRegions.
  - now apply sink_single_prev.
  - now apply sink_single_next.
  - fold (call (CallKeydown e)). rewrite call_keydown_exec, handleKeydown_exec.
    destruct (negb _); [assumption|].
    destruct (String.eqb _ _);
      [unfold sink_single; now rewrite close_liveRegions|].
    destruct (String.eqb _ _); [now apply sink_single_prev|].
    destruct (String.eqb _ _); [now apply sink_single_next|].
    destruct (String.eqb _ _); [|assumption].
    unfold sink_single. now rewrite trapFocus_liveRegions.
Qed.

Lemma sink_single_run (cs : list Call) :
  forall w, sink_single w -> sink_single (run cs w).
Proof.
  induction cs as [|c cs IH]; intros w H; [assumption|].
  cbn [run fold_left]. apply IH. now apply sink_single_call.
Qed.

Lemma sink_single_new (active : Element) (tabbables : list nat) :
  sink_single (new_Lightbox (page active tabbables)).
Proof. unfold sink_single. cbn. lia. Qed.

Lemma updateImage_announces (w : World) :
  sink_single w ->
  0 <= currentIndex (this w) < len (images (this w)) ->
  exists image,
    item_at (images (this w)) (currentIndex (this w)) = Some image
    /\ liveRegions (document (exec updateImage w))
       = [status_text (currentIndex (this w)) (len (images (this w)))
            (alt image)].
Proof.
  intros Hs Hi. apply item_at_Some in Hi as [image Hi].
  exists image. split; [assumption|].
  apply (sink_single_tl w); [assumption|].
  now rewrite updateImage_liveRegions, Hi.
Qed.

Lemma moved_announces (w : World) (i : Z) :
  sink_single w ->
  let w' := exec updateImage (mkWorld (set_currentIndex i (this w)) (document w)) in
  0 <= currentIndex (this w') < len (images (this w')) ->
  exists image,
    item_at (images (this w')) (currentIndex (this w')) = Some image
    /\ liveRegions (document w')
       = [status_text (currentIndex (this w')) (len (images (this w')))
            (alt image)].
Proof.
  intros Hs w'. subst w'. rewrite updateImage_this.
  intro Hi. now apply updateImage_announces.
Qed.

Example status_text_scenario_A : status_text 1 3 "B" = "Image 2 of 3: B".
Proof. reflexivity. Qed.

Example status_text_no_description :
  status_text 11 12 "" = "Image 12 of 12: No description".
Proof. reflexivity. Qed.

Lemma quiet_call (c : Call) (w : World) :
  not_open c = true ->
  images (this w) = [] -> liveRegions (document w) = [] ->
  images (this (exec (call c) w)) = []
  /\ liveRegions (document (exec (call c) w)) = [].
Proof.
  intros Hc Hi Hl.
  assert (Hprev : exec prev w = w).
  { unfold exec. rewrite prev_eq, Hi. reflexivity. }
  assert (Hnext : exec next w = w).
  { unfold exec. rewrite next_eq, Hi. reflexivity. }
  assert (Hclose : images (this (exec close w)) = []
                   /\ liveRegions (document (exec close w)) = []).
  { rewrite close_this, close_liveRegions. now split. }
  destruct c; cbn [not_open call] in *; try discriminate.
  - exact Hclose.
  - rewrite Hprev. now split.
  - rewrite Hnext. now split.
  - fold (call (CallKeydown e)). rewrite call_keydown_exec, handleKeydown_exec.
    destruct (negb _); [now split|].
    destruct (String.eqb _ _); [exact Hclose|].
    destruct (String.eqb _ _); [rewrite Hprev; now split|].
    destruct (String.eqb _ _); [rewrite Hnext; now split|].
    destruct (String.eqb _ _); [|now split].
    rewrite trapFocus_this, trapFocus_liveRegions. now split.
Qed.

Lemma quiet_run (cs : list Call) :
  forall w, forallb not_open cs = true ->
    images (this w) = [] -> liveRegions (document w) = [] ->
    liveRegions (document (run cs w)) = [].
Proof.
  induction cs as [|c cs IH]; intros w H Hi Hl; [assumption|].
  cbn [forallb] in H. apply andb_true_iff in H as [Hc H].
  cbn [run fold_left].
  destruct (quiet_call c w Hc Hi Hl) as [Hi' Hl'].
  now apply IH.
Qed.

Lemma updateImage_at (w : World) (i : Z) :
  sink_single w ->
  0 <= i < len (images (this w)) ->
  let w' := exec updateImage
              (mkWorld (set_currentIndex i (this w)) (document w)) in
  this w' = set_currentIndex i (this w)
  /\ exists image,
       item_at (images (this w)) i = Some image
       /\ liveRegions (document w')
          = [status_text i (len (images (this w))) (alt image)].
Proof.
  intros Hs Hi w'. subst w'. split; [apply updateImage_this|].
  exact (updateImage_announces
           (mkWorld (set_currentIndex i (this w)) (document w)) Hs Hi).
Qed.

(** C8. Take a freshly loaded page and the viewer constructed on it.
    - The live region is created lazily: the page has none when the
      viewer is constructed, and still has none after any calls other
      than [open].
    - Take any state [w] the viewer reaches, and a call of [open],
      [next] or [prev] that renders: [open] with its arguments,
      [next] and [prev] on two images or more, which move the index
      to [(currentIndex + 1) % n] and [(currentIndex - 1 + n) % n].
      If the index the call moves to is valid, the call leaves the
      viewer on that index, and the document then holds exactly one
      live region whose text is exactly
      "Image {currentIndex+1} of {images.length}: {alt or 'No
      description'}" for the image at that index, whatever the region
      held before: the announcement replaces the text. *)
Theorem render_announces
  (active : Element) (tabbables : list nat) (cs0 cs : list Call) (c : Call) :
  let fresh := new_Lightbox (page active tabbables) in
  let w := run cs fresh in
  let w' := exec (call c) w in
  forallb not_open cs0 = true ->
  renders c w = true ->
  0 <= target_index c w < len (target_images c w) ->
  liveRegions (document fresh) = []
  /\ liveRegions (document (run cs0 fresh)) = []
  /\ images (this w') = target_images c w
  /\ currentIndex (this w') = target_index c w
  /\ exists image,
       item_at (target_images c w) (target_index c w) = Some image
       /\ liveRegions (document w')
          = [status_text (target_index c w) (len (target_images c w))
               (alt image)].
Proof.
  intros fresh w w' H0 Hr Hi.
  split; [reflexivity|].
  split; [now apply quiet_run|].
  assert (Hs : sink_single w)
    by (apply sink_single_run, sink_single_new).
  clearbody w. subst w'.
  destruct c; cbn [renders call target_index target_images] in *;
    try discriminate.
  - rewrite open_this. cbn [images currentIndex].
    split; [reflexivity|]. split; [reflexivity|].
    apply item_at_Some in Hi as [image Hi]. exists image.
    split; [assumption|].
    apply (sink_single_tl w); [assumption|].
    now rewrite open_liveRegions, Hi.
  - replace (exec prev w) with (snd (prev w)) by reflexivity.
    rewrite prev_eq. cbn [snd].
    destruct (_ <=? 1); [discriminate|].
    destruct (updateImage_at w _ Hs Hi) as (-> & image & Him & Hl).
    cbn [images currentIndex set_currentIndex]. eauto.
  - replace (exec next w) with (snd (next w)) by reflexivity.
    rewrite next_eq. cbn [snd].
    destruct (_ <=? 1); [discriminate|].
    destruct (updateImage_at w _ Hs Hi) as (-> & image & Him & Hl).
    cbn [images currentIndex set_currentIndex]. eauto.
Qed.

Lemma render_announces_witness :
  let fresh := new_Lightbox gallery_page in
  let w := run [CallOpen three_images 1] fresh in
  let w' := exec (call CallNext) w in
  (forallb not_open [CallNext; CallClose; CallKeydown Tab; CallPrev] = true
   /\ renders CallNext w = true
   /\ 0 <= target_index CallNext w < len (target_images CallNext w))
  /\ liveRegions (document fresh) = []
  /\ liveRegions
       (document (run [CallNext; CallClose; CallKeydown Tab; CallPrev] fresh))
     = []
  /\ liveRegions (document w) = ["Image 2 of 3: B"]
  /\ currentIndex (this w') = 2
  /\ liveRegions (document w') = ["Image 3 of 3: C"].
Proof.
  cbv zeta.
  assert (H0 : forallb not_open [CallNext; CallClose; CallKeydown Tab; CallPrev]
               = true) by reflexivity.
  assert (H1 : renders CallNext
                 (run [CallOpen three_images 1] (new_Lightbox gallery_page))
               = true) by reflexivity.
  assert (H2 : 0 <= target_index CallNext
                      (run [CallOpen three_images 1]
                           (new_Lightbox gallery_page))
               < len (target_images CallNext
                        (run [CallOpen three_images 1]
                             (new_Lightbox gallery_page))))
    by (vm_compute; intuition discriminate).
  split; [exact (conj H0 (conj H1 H2))|].
  destruct (render_announces (PageElem 1) [0%nat; 1%nat; 2%nat]
              [CallNext; CallClose; CallKeydown Tab; CallPrev]
              [CallOpen three_images 1] CallNext H0 H1 H2)
    as (Hf & Hq & _ & Hc & image & Him & Hl).
  split; [exact Hf|]. split; [exact Hq|]. split; [reflexivity|].
  split; [exact Hc|].
  injection Him as <-. exact Hl.
Defined.

(** ** Opening an open viewer *)

Lemma open_activeElement (imgs : list Image) (startIndex : Z) (w : World) :
  activeElement (document (exec (open imgs startIndex) w)) = CloseBtn.
Proof. unfold exec. now rewrite open_eq. Qed.

Lemma close_activeElement (w : World) (e : Element) :
  focusedElementBeforeOpen (this w) = Some e ->
  focusable (document w) e = true ->
  activeElement (document (exec close w)) = e.
Proof.
  intros He Hf. unfold exec. rewrite close_eq. cbn [snd document].
  now rewrite He, Hf.
Qed.

(** ** The focus trap *)

(** No method assigns [focusableElements]: the ring of the trap is the
    node list of the constructor for good. *)
Lemma focusableElements_call (c : Call) (w : World) :
  focusableElements (this (exec (call c) w)) = focusableElements (this w).
Proof.
  destruct c; cbn [call].
  - now rewrite open_this.
  - now rewrite close_this.
  - rewrite prev_this. now destruct (_ <=? 1).
  - rewrite next_this. now destruct (_ <=? 1).
  - fold (call (CallKeydown e)). rewrite call_keydown_exec, handleKeydown_exec.
    destruct (negb _); [reflexivity|].
    destruct (String.eqb _ _); [now rewrite close_this|].
    destruct (String.eqb _ _); [rewrite prev_this; now destruct (_ <=? 1)|].
    destruct (String.eqb _ _); [rewrite next_this; now destruct (_ <=? 1)|].
    destruct (String.eqb _ _); [|reflexivity].
    now rewrite trapFocus_this.
Qed.

Lemma focusableElements_run (cs : list Call) :
  forall w, focusableElements (this (run cs w)) = focusableElements (this w).
Proof.
  induction cs as [|c cs IH]; intro w; [reflexivity|].
  cbn [run fold_left]. fold (run cs (exec (call c) w)).
  now rewrite IH, focusableElements_call.
Qed.

(** After [open] on at most one image, a forward Tab on the close
    button, the only button displayed, is not trapped: the handler
    compares the active element with the hidden next button, changes
    nothing and leaves the key to the browser. *)
Lemma tab_not_trapped_single (imgs : list Image) (i : Z) (w : World) :
  focusableElements (this w) = overlayControls ->
  len imgs <= 1 ->
  let w' := exec (open imgs i) w in
  visibleControls (document w') = [CloseBtn]
  /\ handleKeydown Tab w' = (false, w').
Proof.
  intros Hf Hn w'.
  assert (Hd : prevDisplay (document w') = "none"
               /\ nextDisplay (document w') = "none").
  { subst w'. unfold exec. rewrite open_eq. cbn [snd document].
    destruct (Z.leb_spec (len imgs) 1); [|lia]. split; reflexivity. }
  destruct Hd as [Hp Hx]. split.
  - unfold visibleControls, overlayControls. cbn [filter displayNone].
    now rewrite Hp, Hx.
  - unfold handleKeydown, trapFocus. mred.
    subst w'. rewrite open_this. cbn -[item_at len exec open].
    rewrite open_this, open_activeElement. cbn [focusableElements].
    now rewrite Hf.
Qed.

(** With two images or more the three buttons are displayed and the
    trap closes the loop over them: the two ends are redirected by
    [trapFocus], the interior steps are the browser's. *)

Lemma position_page (a : Element) (t : list nat) (l : list Element) :
  (forall n, a <> PageElem n) ->
  position a (map PageElem t ++ l)%list
  = option_map (Nat.add (List.length t)) (position a l).
Proof.
  intro Ha. induction t as [|n t IH]; cbn [map app position List.length].
  - now destruct (position a l).
  - destruct (Element_eqb a (PageElem n)) eqn:E.
    + apply Element_eqb_eq in E. now apply Ha in E.
    + rewrite IH. now destruct (position a l).
Qed.

Lemma nth_page (k : nat) (t : list nat) (l : list Element) (d : Element) :
  nth (List.length t + k) (map PageElem t ++ l)%list d = nth k l d.
Proof. induction t as [|n t IH]; [reflexivity|exact IH]. Qed.

Lemma browserTab_interior (shift : bool) (d : Document) :
  prevDisplay d = "flex" -> nextDisplay d = "flex" ->
  In (activeElement d) overlayControls ->
  ring_end shift (activeElement d) = false ->
  activeElement (browserTab shift d) = ring_step shift (activeElement d).
Proof.
  intros Hp Hx Hin Hend. unfold browserTab, tabOrder, visibleControls.
  cbn [overlayControls filter displayNone negb]. rewrite Hp, Hx.
  cbn [String.eqb Ascii.eqb Bool.eqb negb].
  set (t := pageTabbables d).
  set (order := (map PageElem t ++ [CloseBtn; PrevBtn; NextBtn])%list).
  assert (Hlen : List.length order = (List.length t + 3)%nat).
  { subst order. rewrite length_app, length_map. reflexivity. }
  assert (Hpos : position (activeElement d) order
                 = option_map (Nat.add (List.length t))
                     (position (activeElement d) [CloseBtn; PrevBtn; NextBtn])).
  { apply position_page. intros n E. rewrite E in Hin.
    cbn in Hin. intuition discriminate. }
  destruct order as [|e0 order'] eqn:Eo; [cbn in Hlen; lia|].
  rewrite <- Eo in *. rewrite Hpos, Hlen. cbn [activeElement set_activeElement].
  cbn in Hin.
  destruct Hin as [E|[E|[E|[]]]]; rewrite <- E in *; clear E;
    destruct shift; try discriminate Hend;
    cbn [position Element_eqb option_map ring_step].
  - rewrite Nat.mod_small by lia.
    replace (List.length t + 0 + 1)%nat with (List.length t + 1)%nat by lia.
    subst order. now rewrite nth_page.
  - replace (List.length t + 1 + (List.length t + 3) - 1)%nat
      with (List.length t + 0 + 1 * (List.length t + 3))%nat by lia.
    rewrite Nat.Div0.mod_add, Nat.mod_small by lia.
    subst order. now rewrite nth_page.
  - rewrite Nat.mod_small by lia.
    replace (List.length t + 1 + 1)%nat with (List.length t + 2)%nat by lia.
    subst order. now rewrite nth_page.
  - replace (List.length t + 2 + (List.length t + 3) - 1)%nat
      with (List.length t + 1 + 1 * (List.length t + 3))%nat by lia.
    rewrite Nat.Div0.mod_add, Nat.mod_small by lia.
    subst order. now rewrite nth_page.
Qed.

Lemma handleKeydown_tab (e : KeyboardEvent) (w : World) :
  key e = "Tab" -> isOpen (this w) = true ->
  handleKeydown e w = trapFocus e w.
Proof.
  intros Hk Ho. unfold handleKeydown. mred. now rewrite Hk, Ho.
Qed.

Lemma trapFocus_ends (e : KeyboardEvent) (w : World) :
  focusableElements (this w) = overlayControls ->
  nextDisplay (document w) = "flex" ->
  In (activeElement (document w)) overlayControls ->
  trapFocus e w
  = if ring_end (shiftKey e) (activeElement (document w))
    then (true,
          mkWorld (this w)
            (set_activeElement
               (ring_step (shiftKey e) (activeElement (document w)))
               (document w)))
    else (false, w).
Proof.
  intros Hf Hx Hin. unfold trapFocus, focus_entry, focus. mred.
  rewrite Hf.
  change (item_at overlayControls 0) with (Some CloseBtn).
  change (item_at overlayControls (len overlayControls - 1))
    with (Some NextBtn).
  cbn in Hin.
  destruct Hin as [E|[E|[E|[]]]]; rewrite <- E; destruct (shiftKey e);
    cbn; rewrite ?Hx; reflexivity.
Qed.

Lemma keypress_tab_ring (e : KeyboardEvent) (w : World) :
  key e = "Tab" -> isOpen (this w) = true ->
  focusableElements (this w) = overlayControls ->
  prevDisplay (document w) = "flex" -> nextDisplay (document w) = "flex" ->
  In (activeElement (document w)) overlayControls ->
  activeElement (document (exec (keypress e) w))
  = ring_step (shiftKey e) (activeElement (document w)).
Proof.
  intros Hk Ho Hf Hp Hx Hin. unfold keypress. mred.
  rewrite handleKeydown_tab, trapFocus_ends, Hk by assumption.
  destruct (ring_end _ _) eqn:Hend; cbn [negb andb String.eqb]; mred.
  - reflexivity.
  - now apply browserTab_interior.
Qed.

(** After [open] on two images or more, every Tab and Shift+Tab from a
    button of the overlay lands on a button of the overlay. *)
Lemma tab_trapped_many (imgs : list Image) (i : Z) (w : World)
      (e : KeyboardEvent) (a : Element) :
  focusableElements (this w) = overlayControls ->
  2 <= len imgs -> key e = "Tab" -> In a overlayControls ->
  let w1 := exec (open imgs i) w in
  let w2 := mkWorld (this w1) (set_activeElement a (document w1)) in
  visibleControls (document w2) = overlayControls
  /\ activeElement (document (exec (keypress e) w2)) = ring_step (shiftKey e) a
  /\ In (ring_step (shiftKey e) a) (visibleControls (document w2)).
Proof.
  intros Hf Hn Hk Hin w1 w2.
  assert (Hd : prevDisplay (document w1) = "flex"
               /\ nextDisplay (document w1) = "flex").
  { subst w1. unfold exec. rewrite open_eq. cbn [snd document].
    destruct (Z.leb_spec (len imgs) 1); [lia|]. split; reflexivity. }
  destruct Hd as [Hp Hx].
  assert (Hv : visibleControls (document w2) = overlayControls).
  { unfold visibleControls, overlayControls. subst w2.
    cbn [filter displayNone document prevDisplay nextDisplay set_activeElement].
    now rewrite Hp, Hx. }
  split; [assumption|]. split.
  - rewrite keypress_tab_ring; subst w2; cbn [this document]; try assumption.
    + reflexivity.
    + subst w1. now rewrite open_this.
    + subst w1. now rewrite open_this.
  - rewrite Hv. cbn in Hin.
    destruct Hin as [E|[E|[E|[]]]]; rewrite <- E; destruct (shiftKey e);
      cbn; auto.
Qed.

(** C4 fails on the code for a gallery of one image.  The viewer is
    open on the only image and the close button, the only control
    displayed, has the focus.  The ring of [trapFocus] still is the
    three buttons of the constructor, so a forward Tab is compared with
    the hidden next button, is not prevented, and the browser moves the
    focus to the gallery entry behind the overlay. *)
Theorem tab_escapes_single_image :
  isOpen (this opened_single) = true
  /\ activeElement (document opened_single) = CloseBtn
  /\ visibleControls (document opened_single) = [CloseBtn]
  /\ focusableElements (this opened_single) = [CloseBtn; PrevBtn; NextBtn]
  /\ handleKeydown Tab opened_single = (false, opened_single)
  /\ activeElement (document (exec (keypress Tab) opened_single)) = PageElem 0
  /\ ~ In (PageElem 0) (visibleControls (document opened_single)).
Proof.
  repeat split; try reflexivity.
  vm_compute. intros [H|[]]. discriminate H.
Qed.

(** * More of the viewer *)

(** ** What [open] leaves behind *)

Lemma open_document (imgs : list Image) (startIndex : Z) (w : World) :
  let d' := document (exec (open imgs startIndex) w) in
  lightboxActive d' = true
  /\ bodyOverflow d' = "hidden"
  /\ activeElement d' = CloseBtn
  /\ prevDisplay d' = (if len imgs <=? 1 then "none" else "flex")
  /\ nextDisplay d' = (if len imgs <=? 1 then "none" else "flex")
  /\ pageTabbables d' = pageTabbables (document w).
Proof.
  unfold exec. rewrite open_eq. cbn [snd document].
  destruct (item_at imgs startIndex); repeat split; reflexivity.
Qed.

Lemma open_shows (imgs : list Image) (startIndex : Z) (w : World)
      (image : Image) :
  item_at imgs startIndex = Some image ->
  shows (document (exec (open imgs startIndex) w)) image startIndex (len imgs).
Proof.
  intro H. unfold exec. rewrite open_eq. cbn [snd document]. rewrite H.
  unfold shows, rendered. cbn. rewrite !or_else_eqb.
  repeat split; try reflexivity. now destruct (alt image).
Qed.

(** Whatever its arguments, [open] leaves the viewer open with the
    overlay shown, the background scroll locked and the focus on the
    close button; the two navigation buttons are hidden when the
    sequence has at most one image and displayed otherwise, so the
    buttons the user can reach are the close button alone or all
    three. *)
Theorem open_postcondition (imgs : list Image) (startIndex : Z) (w : World) :
  let w' := exec (open imgs startIndex) w in
  isOpen (this w') = true
  /\ images (this w') = imgs
  /\ currentIndex (this w') = startIndex
  /\ focusedElementBeforeOpen (this w') = Some (activeElement (document w))
  /\ lightboxActive (document w') = true
  /\ bodyOverflow (document w') = "hidden"
  /\ activeElement (document w') = CloseBtn
  /\ visibleControls (document w')
     = (if len imgs <=? 1 then [CloseBtn] else overlayControls).
Proof.
  cbv zeta. rewrite open_this.
  destruct (open_document imgs startIndex w) as (Ha & Hb & Hf & Hp & Hx & _).
  repeat split; try assumption.
  unfold visibleControls, overlayControls. cbn [filter displayNone negb].
  rewrite Hp, Hx. now destruct (len imgs <=? 1).
Qed.

(** For a start index that names an image, [open] shows that image:
    its source, its alternative text (or "Image k of n" when it has
    none) and its caption. *)
Theorem open_renders (imgs : list Image) (startIndex : Z) (w : World) :
  0 <= startIndex < len imgs ->
  exists image,
    item_at imgs startIndex = Some image
    /\ shows (document (exec (open imgs startIndex) w)) image startIndex
         (len imgs).
Proof.
  intro H. apply item_at_Some in H as [image H].
  exists image. split; [assumption|now apply open_shows].
Qed.

Lemma open_renders_witness :
  0 <= 1 < len three_images
  /\ imageSrc (document opened_on_B) = "b.jpg"
  /\ imageAlt (document opened_on_B) = "B".
Proof.
  assert (H : 0 <= 1 < len three_images) by (vm_compute; intuition discriminate).
  split; [exact H|].
  destruct (open_renders three_images 1 (new_Lightbox gallery_page) H)
    as (image & Hi & Hs & Ha & _).
  injection Hi as <-. split; [exact Hs|exact Ha].
Defined.

(** ** What is shown is the current image *)

Lemma rendered_shows (l : Lightbox) (image : Image) (d : Document) :
  shows (rendered l image d) image (currentIndex l) (len (images l))
  /\ hd_error (liveRegions (rendered l image d))
     = Some (status_text (currentIndex l) (len (images l)) (alt image)).
Proof.
  unfold shows, rendered. cbn. rewrite !or_else_eqb.
  repeat split; try reflexivity. now destruct (alt image).
Qed.

Lemma in_sync_updateImage (w : World) : in_sync (exec updateImage w).
Proof.
  unfold in_sync. rewrite updateImage_this. intros image H.
  unfold exec. rewrite updateImage_eq, H. cbn [snd document].
  apply rendered_shows.
Qed.

Lemma in_sync_frame (w w' : World) :
  images (this w') = images (this w) ->
  currentIndex (this w') = currentIndex (this w) ->
  imageSrc (document w') = imageSrc (document w) ->
  imageAlt (document w') = imageAlt (document w) ->
  captionText (document w') = captionText (document w) ->
  liveRegions (document w') = liveRegions (document w) ->
  in_sync w -> in_sync w'.
Proof.
  unfold in_sync, shows. intros -> -> -> -> -> ->. auto.
Qed.

Lemma close_frame (w : World) :
  imageSrc (document (exec close w)) = imageSrc (document w)
  /\ imageAlt (document (exec close w)) = imageAlt (document w)
  /\ captionText (document (exec close w)) = captionText (document w)
  /\ prevDisplay (document (exec close w)) = prevDisplay (document w)
  /\ nextDisplay (document (exec close w)) = nextDisplay (document w)
  /\ pageTabbables (document (exec close w)) = pageTabbables (document w).
Proof.
  unfold exec. rewrite close_eq. cbn [snd document].
  destruct (focusedElementBeforeOpen _) as [e|]; [|repeat split].
  destruct (focusable _ e); repeat split.
Qed.

Lemma trapFocus_frame (e : KeyboardEvent) (w : World) :
  imageSrc (document (exec (trapFocus e) w)) = imageSrc (document w)
  /\ imageAlt (document (exec (trapFocus e) w)) = imageAlt (document w)
  /\ captionText (document (exec (trapFocus e) w)) = captionText (document w)
  /\ bodyOverflow (document (exec (trapFocus e) w)) = bodyOverflow (document w)
  /\ lightboxActive (document (exec (trapFocus e) w))
     = lightboxActive (document w).
Proof.
  unfold trapFocus, focus_entry, focus. mred.
  destruct (shiftKey e), (is_element _ _); mred; try (repeat split; fail);
    (destruct (item_at _ _) as [x|]; mred; [|repeat split]);
    destruct (focusable _ x); repeat split.
Qed.

Lemma in_sync_close (w : World) : in_sync w -> in_sync (exec close w).
Proof.
  destruct (close_frame w) as (H1 & H2 & H3 & _).
  apply in_sync_frame; try assumption;
    rewrite ?close_this, ?close_liveRegions; reflexivity.
Qed.

Lemma in_sync_next (w : World) : in_sync w -> in_sync (exec next w).
Proof.
  intro H. unfold exec at 1. rewrite next_eq. cbn [snd].
  destruct (_ <=? 1); [assumption|apply in_sync_updateImage].
Qed.

Lemma in_sync_prev (w : World) : in_sync w -> in_sync (exec prev w).
Proof.
  intro H. unfold exec at 1. rewrite prev_eq. cbn [snd].
  destruct (_ <=? 1); [assumption|apply in_sync_updateImage].
Qed.

Lemma in_sync_open (imgs : list Image) (i : Z) (w : World) :
  in_sync (exec (open imgs i) w).
Proof.
  unfold in_sync. rewrite open_this. cbn [images currentIndex].
  intros image H. split; [now apply open_shows|].
  now rewrite open_liveRegions, H.
Qed.

Lemma in_sync_call (c : Call) (w : World) :
  in_sync w -> in_sync (exec (call c) w).
Proof.
  intro H. destruct c; cbn [call].
  - apply in_sync_open.
  - now apply in_sync_close.
  - now apply in_sync_prev.
  - now apply in_sync_next.
  - fold (call (CallKeydown e)). rewrite call_keydown_exec, handleKeydown_exec.
    destruct (negb _); [assumption|].
    destruct (String.eqb _ _); [now apply in_sync_close|].
    destruct (String.eqb _ _); [now apply in_sync_prev|].
    destruct (String.eqb _ _); [now apply in_sync_next|].
    destruct (String.eqb _ _); [|assumption].
    destruct (trapFocus_frame e w) as (H1 & H2 & H3 & _).
    revert H. apply in_sync_frame; try assumption;
      rewrite ?trapFocus_this, ?trapFocus_liveRegions; reflexivity.
Qed.

Lemma in_sync_run (cs : list Call) :
  forall w, in_sync w -> in_sync (run cs w).
Proof.
  induction cs as [|c cs IH]; intros w H; [assumption|].
  cbn [run fold_left]. apply IH. now apply in_sync_call.
Qed.

(** In every state the viewer reaches from its construction, by any
    calls with any arguments, if the current index names an image then
    the overlay shows that image (source, alternative text or its
    "Image k of n" fallback, caption) and the first live region holds
    its status text: what is displayed and announced never lags behind
    the index. *)
Theorem display_in_sync (d : Document) (cs : list Call) (image : Image) :
  let w := run cs (new_Lightbox d) in
  item_at (images (this w)) (currentIndex (this w)) = Some image ->
  shows (document w) image (currentIndex (this w)) (len (images (this w)))
  /\ hd_error (liveRegions (document w))
     = Some (status_text (currentIndex (this w)) (len (images (this w)))
               (alt image)).
Proof.
  cbv zeta.
  assert (H : in_sync (run cs (new_Lightbox d))).
  { apply in_sync_run. intros image' H'. discriminate H'. }
  apply H.
Qed.

Lemma display_in_sync_witness :
  let w := run [CallOpen three_images 1; CallNext; CallNext; CallClose]
               (new_Lightbox gallery_page) in
  item_at (images (this w)) (currentIndex (this w))
  = Some (mkImage "a.jpg" "A")
  /\ imageSrc (document w) = "a.jpg"
  /\ hd_error (liveRegions (document w)) = Some "Image 1 of 3: A".
Proof.
  cbv zeta.
  assert (H : item_at
                (images (this (run [CallOpen three_images 1; CallNext;
                                    CallNext; CallClose]
                                   (new_Lightbox gallery_page))))
                (currentIndex
                   (this (run [CallOpen three_images 1; CallNext;
                               CallNext; CallClose]
                              (new_Lightbox gallery_page))))
              = Some (mkImage "a.jpg" "A")) by reflexivity.
  split; [exact H|].
  destruct (display_in_sync gallery_page
              [CallOpen three_images 1; CallNext; CallNext; CallClose]
              (mkImage "a.jpg" "A") H) as ((Hs & _) & Hl).
  split; [exact Hs|exact Hl].
Defined.

(** ** The overlay, the scroll lock and the flag *)

Lemma next_document_frame (w : World) :
  lightboxActive (document (exec next w)) = lightboxActive (document w)
  /\ bodyOverflow (document (exec next w)) = bodyOverflow (document w)
  /\ activeElement (document (exec next w)) = activeElement (document w)
  /\ prevDisplay (document (exec next w)) = prevDisplay (document w)
  /\ nextDisplay (document (exec next w)) = nextDisplay (document w)
  /\ pageTabbables (document (exec next w)) = pageTabbables (document w).
Proof.
  unfold exec at 1 2 3 4 5 6. rewrite next_eq. cbn [snd].
  destruct (_ <=? 1); [repeat split|].
  unfold exec. rewrite updateImage_eq. cbn [snd this document].
  destruct (item_at _ _); repeat split.
Qed.

Lemma prev_document_frame (w : World) :
  lightboxActive (document (exec prev w)) = lightboxActive (document w)
  /\ bodyOverflow (document (exec prev w)) = bodyOverflow (document w)
  /\ activeElement (document (exec prev w)) = activeElement (document w)
  /\ prevDisplay (document (exec prev w)) = prevDisplay (document w)
  /\ nextDisplay (document (exec prev w)) = nextDisplay (document w)
  /\ pageTabbables (document (exec prev w)) = pageTabbables (document w).
Proof.
  unfold exec at 1 2 3 4 5 6. rewrite prev_eq. cbn [snd].
  destruct (_ <=? 1); [repeat split|].
  unfold exec. rewrite updateImage_eq. cbn [snd this document].
  destruct (item_at _ _); repeat split.
Qed.

Lemma close_overlay (w : World) :
  lightboxActive (document (exec close w)) = false
  /\ bodyOverflow (document (exec close w)) = "".
Proof.
  unfold exec. rewrite close_eq. cbn [snd document].
  destruct (focusedElementBeforeOpen _) as [e|]; [|split; reflexivity].
  destruct (focusable _ e); split; reflexivity.
Qed.

Lemma overlay_consistent_call (c : Call) (w : World) :
  overlay_consistent w -> overlay_consistent (exec (call c) w).
Proof.
  unfold overlay_consistent. intros [Ha Hb].
  assert (Hclose : lightboxActive (document (exec close w))
                   = isOpen (this (exec close w))
                   /\ bodyOverflow (document (exec close w))
                      = (if isOpen (this (exec close w)) then "hidden" else "")).
  { rewrite close_this. destruct (close_overlay w) as [-> ->]. now split. }
  assert (Hnext : lightboxActive (document (exec next w))
                  = isOpen (this (exec next w))
                  /\ bodyOverflow (document (exec next w))
                     = (if isOpen (this (exec next w)) then "hidden" else "")).
  { destruct (next_document_frame w) as (-> & -> & _).
    rewrite next_this. now destruct (_ <=? 1). }
  assert (Hprev : lightboxActive (document (exec prev w))
                  = isOpen (this (exec prev w))
                  /\ bodyOverflow (document (exec prev w))
                     = (if isOpen (this (exec prev w)) then "hidden" else "")).
  { destruct (prev_document_frame w) as (-> & -> & _).
    rewrite prev_this. now destruct (_ <=? 1). }
  destruct c; cbn [call]; try assumption.
  - destruct (open_document imgs startIndex w) as (-> & -> & _).
    rewrite open_this. now split.
  - fold (call (CallKeydown e)). rewrite call_keydown_exec, handleKeydown_exec.
    destruct (negb _); [now split|].
    do 3 (destruct (String.eqb _ _); [assumption|]).
    destruct (String.eqb _ _); [|now split].
    destruct (trapFocus_frame e w) as (_ & _ & _ & -> & ->).
    rewrite trapFocus_this. now split.
Qed.

(** From a freshly loaded page, whatever is called and with whatever
    arguments, the overlay is shown exactly when [isOpen] is true, and
    the inline overflow of the body is [hidden] exactly then and empty
    otherwise. *)
Theorem overlay_follows_isOpen
        (active : Element) (tabbables : list nat) (cs : list Call) :
  overlay_consistent (run cs (new_Lightbox (page active tabbables))).
Proof.
  assert (H : forall w, overlay_consistent w -> overlay_consistent (run cs w)).
  { induction cs as [|c cs IH]; intros w Hw; [assumption|].
    cbn [run fold_left]. apply IH. now apply overlay_consistent_call. }
  apply H. now split.
Qed.

(** ** [close] twice *)

(** [close()] is idempotent on the whole state: a second call changes
    neither the instance nor the document. *)
Theorem close_idempotent (w : World) :
  exec close (exec close w) = exec close w.
Proof.
  unfold exec. rewrite !close_eq. cbn [snd this document].
  destruct w as [[imgs i o f fe] [a bo la isrc ia ct pd nd lr pt]].
  destruct f as [e|]; [|reflexivity].
  destruct e; cbn; try reflexivity.
  - destruct (String.eqb pd "none") eqn:E; cbn; now rewrite ?E.
  - destruct (String.eqb nd "none") eqn:E; cbn; now rewrite ?E.
Qed.

(** ** Focus comes back *)

Lemma run_app (cs cs' : list Call) (w : World) :
  run (cs ++ cs')%list w = run cs' (run cs w).
Proof. unfold run. apply fold_left_app. Qed.

Lemma stored_focus_call (c : Call) (w : World) :
  not_open c = true ->
  focusedElementBeforeOpen (this (exec (call c) w))
  = focusedElementBeforeOpen (this w).
Proof.
  destruct c; cbn [not_open call]; intro H; try discriminate.
  - now rewrite close_this.
  - rewrite prev_this. now destruct (_ <=? 1).
  - rewrite next_this. now destruct (_ <=? 1).
  - fold (call (CallKeydown e)). rewrite call_keydown_exec, handleKeydown_exec.
    destruct (negb _); [reflexivity|].
    destruct (String.eqb _ _); [now rewrite close_this|].
    destruct (String.eqb _ _); [rewrite prev_this; now destruct (_ <=? 1)|].
    destruct (String.eqb _ _); [rewrite next_this; now destruct (_ <=? 1)|].
    destruct (String.eqb _ _); [|reflexivity].
    now rewrite trapFocus_this.
Qed.

Lemma stored_focus_run (cs : list Call) :
  forall w, forallb not_open cs = true ->
    focusedElementBeforeOpen (this (run cs w))
    = focusedElementBeforeOpen (this w).
Proof.
  induction cs as [|c cs IH]; intros w H; [reflexivity|].
  cbn [forallb] in H. apply andb_true_iff in H as [Hc H].
  cbn [run fold_left]. fold (run cs (exec (call c) w)).
  now rewrite IH, stored_focus_call.
Qed.

(** C9. Let an element other than the close button hold the focus and
    let [open] be called twice in a row.  The first call stores that
    element and moves the focus to the close button; the second call
    overwrites the stored element with the element that holds the
    focus at that moment, the close button.  From then on, whatever is
    called short of another [open] (keys that move the focus inside
    the overlay, navigation, closes), the stored element stays the
    close button, and a [close()] gives the focus to the close button,
    not to the element that had it before the first [open]. *)
Theorem reopen_overwrites_focus
  (w : World) (imgs1 imgs2 : list Image) (i1 i2 : Z) (cs : list Call) :
  activeElement (document w) <> CloseBtn ->
  forallb not_open cs = true ->
  let w1 := exec (open imgs1 i1) w in
  let w2 := exec (open imgs2 i2) w1 in
  let w3 := run cs w2 in
  focusedElementBeforeOpen (this w1) = Some (activeElement (document w))
  /\ activeElement (document w1) = CloseBtn
  /\ focusedElementBeforeOpen (this w2) = Some CloseBtn
  /\ activeElement (document (exec close w2)) = CloseBtn
  /\ activeElement (document (exec close w2)) <> activeElement (document w)
  /\ focusedElementBeforeOpen (this w3) = Some CloseBtn
  /\ activeElement (document (exec close w3)) = CloseBtn
  /\ activeElement (document (exec close w3)) <> activeElement (document w).
Proof.
  intros Hne Hcs w1 w2 w3.
  assert (H1 : activeElement (document w1) = CloseBtn)
    by apply open_activeElement.
  assert (H2 : focusedElementBeforeOpen (this w2) = Some CloseBtn).
  { subst w2. rewrite open_this. cbn [focusedElementBeforeOpen].
    now rewrite H1. }
  assert (H3 : activeElement (document (exec close w2)) = CloseBtn)
    by now apply close_activeElement.
  assert (H4 : focusedElementBeforeOpen (this w3) = Some CloseBtn).
  { subst w3. now rewrite stored_focus_run. }
  assert (H5 : activeElement (document (exec close w3)) = CloseBtn)
    by now apply close_activeElement.
  repeat split; try assumption.
  - subst w1. now rewrite open_this.
  - rewrite H3. congruence.
  - rewrite H5. congruence.
Qed.

Lemma reopen_overwrites_focus_witness :
  let w2 := exec (open three_images 2)
              (exec (open three_images 1) (new_Lightbox gallery_page)) in
  let w3 := run [CallKeydown ShiftTab; CallNext] w2 in
  (activeElement (document (new_Lightbox gallery_page)) <> CloseBtn
   /\ forallb not_open [CallKeydown ShiftTab; CallNext] = true)
  /\ activeElement (document w3) = NextBtn
  /\ activeElement (document (exec close w3)) = CloseBtn.
Proof.
  cbv zeta.
  assert (H : activeElement (document (new_Lightbox gallery_page)) <> CloseBtn)
    by discriminate.
  assert (Hcs : forallb not_open [CallKeydown ShiftTab; CallNext] = true)
    by reflexivity.
  split; [exact (conj H Hcs)|]. split; [vm_compute; reflexivity|].
  destruct (reopen_overwrites_focus (new_Lightbox gallery_page)
              three_images three_images 1 2 [CallKeydown ShiftTab; CallNext]
              H Hcs) as (_ & _ & _ & _ & _ & _ & Hc & _).
  exact Hc.
Defined.

(** If an element of the page holds the focus when [open] is called,
    then after any further calls other than [open] (navigation, keys,
    even closes) a [close()] leaves the focus on that element, the
    viewer closed and the scroll lock released. *)
Theorem focus_restored
        (w : World) (imgs : list Image) (i : Z) (cs : list Call) (n : nat) :
  activeElement (document w) = PageElem n ->
  forallb not_open cs = true ->
  let w' := run (CallOpen imgs i :: cs ++ [CallClose]) w in
  activeElement (document w') = PageElem n
  /\ isOpen (this w') = false
  /\ bodyOverflow (document w') = "".
Proof.
  intros Ha Hcs w'. subst w'.
  change (CallOpen imgs i :: cs ++ [CallClose])%list
    with ([CallOpen imgs i] ++ cs ++ [CallClose])%list.
  rewrite !run_app.
  set (w1 := run cs (run [CallOpen imgs i] w)).
  change (run [CallClose] w1) with (exec close w1).
  assert (Hs : focusedElementBeforeOpen (this w1) = Some (PageElem n)).
  { subst w1. rewrite stored_focus_run by assumption.
    change (run [CallOpen imgs i] w) with (exec (open imgs i) w).
    rewrite open_this. cbn [focusedElementBeforeOpen]. now rewrite Ha. }
  split; [now apply close_activeElement|].
  rewrite close_this. split; [reflexivity|apply close_overlay].
Qed.

Lemma focus_restored_witness :
  (activeElement (document (new_Lightbox gallery_page)) = PageElem 1
   /\ forallb not_open [CallNext; CallKeydown ShiftTab; CallPrev] = true)
  /\ activeElement
       (document
          (run [CallOpen three_images 0; CallNext; CallKeydown ShiftTab;
                CallPrev; CallClose]
               (new_Lightbox gallery_page)))
     = PageElem 1.
Proof.
  assert (H1 : activeElement (document (new_Lightbox gallery_page))
               = PageElem 1) by reflexivity.
  assert (H2 : forallb not_open [CallNext; CallKeydown ShiftTab; CallPrev]
               = true) by reflexivity.
  split; [exact (conj H1 H2)|].
  exact (proj1 (focus_restored (new_Lightbox gallery_page) three_images 0
                  [CallNext; CallKeydown ShiftTab; CallPrev] 1%nat H1 H2)).
Defined.

(** ** [next] and [prev] undo each other *)

Lemma set_currentIndex_id (l : Lightbox) (i : Z) :
  i = currentIndex l -> set_currentIndex i l = l.
Proof. intros ->. now destruct l. Qed.

(** On two images or more and from a valid index, [prev()] after
    [next()] and [next()] after [prev()] bring the instance back to
    what it was. *)
Theorem next_prev_inverse (w : World) :
  2 <= len (images (this w)) ->
  0 <= currentIndex (this w) < len (images (this w)) ->
  this (exec prev (exec next w)) = this w
  /\ this (exec next (exec prev w)) = this w.
Proof.
  intros Hn Hi. set (n := len (images (this w))) in *.
  assert (Hle : (n <=? 1) = false) by (apply Z.leb_gt; lia).
  split.
  - rewrite prev_this, next_this. fold n. rewrite Hle.
    cbn [images currentIndex set_currentIndex]. fold n. rewrite Hle.
    rewrite (rem_succ n) by lia.
    rewrite (rem_pred n) by (try apply Z.mod_pos_bound; lia).
    rewrite Zminus_mod_idemp_l.
    replace (currentIndex (this w) + 1 - 1) with (currentIndex (this w)) by lia.
    rewrite Z.mod_small by lia.
    unfold set_currentIndex; cbn. now destruct (this w).
  - rewrite next_this, prev_this. fold n. rewrite Hle.
    cbn [images currentIndex set_currentIndex]. fold n. rewrite Hle.
    rewrite (rem_pred n) by lia.
    rewrite (rem_succ n) by (try apply Z.mod_pos_bound; lia).
    rewrite Zplus_mod_idemp_l.
    replace (currentIndex (this w) - 1 + 1) with (currentIndex (this w)) by lia.
    rewrite Z.mod_small by lia.
    unfold set_currentIndex; cbn. now destruct (this w).
Qed.

Lemma next_prev_inverse_witness :
  (2 <= len (images (this opened_on_B))
   /\ 0 <= currentIndex (this opened_on_B) < len (images (this opened_on_B)))
  /\ this (exec prev (exec next opened_on_B)) = this opened_on_B
  /\ this (exec next (exec prev opened_on_B)) = this opened_on_B.
Proof.
  assert (H2 : 2 <= len (images (this opened_on_B)))
    by (vm_compute; discriminate).
  assert (Hi : 0 <= currentIndex (this opened_on_B)
               < len (images (this opened_on_B)))
    by (vm_compute; intuition discriminate).
  split; [exact (conj H2 Hi)|].
  exact (next_prev_inverse opened_on_B H2 Hi).
Defined.

(** ** The focus stays in the overlay *)

Lemma browserTab_frame (shift : bool) (d : Document) :
  prevDisplay (browserTab shift d) = prevDisplay d
  /\ nextDisplay (browserTab shift d) = nextDisplay d.
Proof.
  unfold browserTab. destruct (tabOrder d); [now split|].
  now split.
Qed.

Lemma ring_step_in (shift : bool) (a : Element) :
  In a overlayControls -> In (ring_step shift a) overlayControls.
Proof.
  cbn. intros [E|[E|[E|[]]]]; rewrite <- E; destruct shift; cbn; auto.
Qed.

Lemma keypress_tab_this (e : KeyboardEvent) (w : World) :
  key e = "Tab" -> isOpen (this w) = true ->
  this (exec (keypress e) w) = this w
  /\ prevDisplay (document (exec (keypress e) w)) = prevDisplay (document w)
  /\ nextDisplay (document (exec (keypress e) w)) = nextDisplay (document w).
Proof.
  intros Hk Ho. unfold keypress. mred.
  rewrite handleKeydown_tab, Hk, String.eqb_refl by assumption.
  pose proof (trapFocus_this e w) as Ht. unfold exec in Ht.
  assert (Hd : prevDisplay (document (snd (trapFocus e w)))
               = prevDisplay (document w)
               /\ nextDisplay (document (snd (trapFocus e w)))
                  = nextDisplay (document w)).
  { unfold trapFocus, focus_entry, focus. mred.
    destruct (shiftKey e), (is_element _ _); mred; try (now split);
      (destruct (item_at _ _) as [x|]; mred; [|now split]);
      destruct (focusable _ x); now split. }
  destruct (trapFocus e w) as [p w1]. cbn [snd] in *.
  destruct p; cbn [negb andb]; mred; [now split|].
  destruct (browserTab_frame (shiftKey e) (document w1)) as [-> ->].
  now split.
Qed.

Lemma keypress_arrow (e : KeyboardEvent) (w : World) :
  isOpen (this w) = true -> key e <> "Tab" -> trap_key e = true ->
  exec (keypress e) w = exec prev w \/ exec (keypress e) w = exec next w.
Proof.
  intros Ho Hk Ht. unfold trap_key in Ht.
  assert (HT : String.eqb (key e) "Tab" = false)
    by now apply String.eqb_neq.
  rewrite HT in Ht. cbn [orb] in Ht.
  unfold keypress, handleKeydown. mred. rewrite Ho. cbn [negb].
  destruct (String.eqb (key e) "Escape") eqn:Eesc.
  { apply String.eqb_eq in Eesc. rewrite Eesc in Ht. discriminate Ht. }
  destruct (String.eqb (key e) "ArrowLeft").
  - left. mred. now destruct (prev w).
  - right. cbn [orb] in Ht. rewrite Ht. mred. now destruct (next w).
Qed.

Lemma trapped_keypress (e : KeyboardEvent) (w : World) :
  trap_key e = true -> trapped w -> trapped (exec (keypress e) w).
Proof.
  intros Ht (Ho & Hf & Hp & Hx & Hin). unfold trapped.
  destruct (String.eqb (key e) "Tab") eqn:Ek.
  - apply String.eqb_eq in Ek.
    destruct (keypress_tab_this e w Ek Ho) as (-> & -> & ->).
    rewrite keypress_tab_ring by assumption.
    repeat split; try assumption. now apply ring_step_in.
  - apply String.eqb_neq in Ek.
    destruct (keypress_arrow e w Ho Ek Ht) as [-> | ->].
    + destruct (prev_document_frame w) as (_ & _ & -> & -> & -> & _).
      rewrite prev_this. now destruct (_ <=? 1).
    + destruct (next_document_frame w) as (_ & _ & -> & -> & -> & _).
      rewrite next_this. now destruct (_ <=? 1).
Qed.

Lemma trapped_keypresses (es : list KeyboardEvent) :
  forall w, forallb trap_key es = true -> trapped w ->
    trapped (keypresses es w).
Proof.
  induction es as [|e es IH]; intros w H Hw; [assumption|].
  cbn [forallb] in H. apply andb_true_iff in H as [He H].
  cbn [keypresses fold_left]. apply IH; [assumption|].
  now apply trapped_keypress.
Qed.

Lemma trapped_open (d : Document) (cs : list Call) (imgs : list Image) (i : Z) :
  2 <= len imgs ->
  trapped (exec (open imgs i) (run cs (new_Lightbox d))).
Proof.
  intro Hn. unfold trapped.
  destruct (open_document imgs i (run cs (new_Lightbox d)))
    as (_ & _ & -> & -> & -> & _).
  rewrite open_this. cbn [isOpen focusableElements].
  rewrite focusableElements_run.
  destruct (Z.leb_spec (len imgs) 1); [lia|].
  repeat split. cbn. auto.
Qed.

(** With two images or more, once the viewer has been opened, no
    sequence of Tab, Shift+Tab and arrow keys takes the focus off the
    three buttons of the overlay, and the viewer stays open (the
    browser moving the focus on the Tab presses the handler lets
    through). *)
Theorem focus_stays_in_overlay
        (d : Document) (cs : list Call) (imgs : list Image) (i : Z)
        (es : list KeyboardEvent) :
  2 <= len imgs ->
  forallb trap_key es = true ->
  let w := keypresses es (exec (open imgs i) (run cs (new_Lightbox d))) in
  isOpen (this w) = true
  /\ In (activeElement (document w)) (visibleControls (document w)).
Proof.
  intros Hn Hes w.
  assert (H : trapped w)
    by (apply trapped_keypresses; [assumption|now apply trapped_open]).
  destruct H as (Ho & _ & Hp & Hx & Hin).
  split; [assumption|].
  unfold visibleControls, overlayControls. cbn [filter displayNone negb].
  now rewrite Hp, Hx.
Qed.

Lemma focus_stays_in_overlay_witness :
  (2 <= len three_images
   /\ forallb trap_key
        [Tab; Tab; Tab; mkKeyboardEvent "ArrowRight" false; ShiftTab] = true)
  /\ In NextBtn
       (visibleControls
          (document
             (keypresses
                [Tab; Tab; Tab; mkKeyboardEvent "ArrowRight" false; ShiftTab]
                (exec (open three_images 1)
                   (run [] (new_Lightbox gallery_page)))))).
Proof.
  assert (H1 : 2 <= len three_images) by (vm_compute; discriminate).
  assert (H2 : forallb trap_key
                 [Tab; Tab; Tab; mkKeyboardEvent "ArrowRight" false; ShiftTab]
               = true) by reflexivity.
  split; [exact (conj H1 H2)|].
  exact (proj2 (focus_stays_in_overlay gallery_page [] three_images 1
                  [Tab; Tab; Tab; mkKeyboardEvent "ArrowRight" false; ShiftTab]
                  H1 H2)).
Defined.

Lemma ring_step_thrice (shift : bool) (a : Element) :
  ring_step shift (ring_step shift (ring_step shift a)) = a.
Proof. destruct a, shift; reflexivity. Qed.

Lemma ring_step_back (shift : bool) (a : Element) :
  ring_step (negb shift) (ring_step shift a) = a.
Proof. destruct a, shift; reflexivity. Qed.

Lemma trapped_tab (e : KeyboardEvent) (w : World) :
  key e = "Tab" -> trapped w ->
  trapped (exec (keypress e) w)
  /\ activeElement (document (exec (keypress e) w))
     = ring_step (shiftKey e) (activeElement (document w)).
Proof.
  intros Hk Hw. split.
  - apply trapped_keypress; [|assumption].
    unfold trap_key. now rewrite Hk.
  - destruct Hw as (Ho & Hf & Hp & Hx & Hin). now apply keypress_tab_ring.
Qed.

(** With two images or more and the viewer open, three Tab presses
    bring the focus back to the button it started on, three Shift+Tab
    presses do too, and a Shift+Tab undoes a Tab. *)
Theorem tab_cycle
        (d : Document) (cs : list Call) (imgs : list Image) (i : Z)
        (es : list KeyboardEvent) :
  2 <= len imgs ->
  forallb trap_key es = true ->
  let w := keypresses es (exec (open imgs i) (run cs (new_Lightbox d))) in
  activeElement (document (keypresses [Tab; Tab; Tab] w))
  = activeElement (document w)
  /\ activeElement (document (keypresses [ShiftTab; ShiftTab; ShiftTab] w))
     = activeElement (document w)
  /\ activeElement (document (keypresses [Tab; ShiftTab] w))
     = activeElement (document w).
Proof.
  intros Hn Hes w.
  assert (H : trapped w)
    by (apply trapped_keypresses; [assumption|now apply trapped_open]).
  clearbody w. cbn [keypresses fold_left].
  destruct (trapped_tab Tab w eq_refl H) as [H1 E1].
  destruct (trapped_tab Tab _ eq_refl H1) as [H2 E2].
  destruct (trapped_tab Tab _ eq_refl H2) as [_ E3].
  destruct (trapped_tab ShiftTab w eq_refl H) as [S1 F1].
  destruct (trapped_tab ShiftTab _ eq_refl S1) as [S2 F2].
  destruct (trapped_tab ShiftTab _ eq_refl S2) as [_ F3].
  destruct (trapped_tab ShiftTab _ eq_refl H1) as [_ G].
  repeat split.
  - rewrite E3, E2, E1. apply ring_step_thrice.
  - rewrite F3, F2, F1. apply ring_step_thrice.
  - rewrite G, E1. apply (ring_step_back false).
Qed.

Lemma tab_cycle_witness :
  (2 <= len three_images /\ forallb trap_key [Tab] = true)
  /\ activeElement
       (document
          (keypresses [Tab; Tab; Tab]
             (keypresses [Tab]
                (exec (open three_images 1)
                   (run [] (new_Lightbox gallery_page))))))
     = PrevBtn.
Proof.
  assert (H1 : 2 <= len three_images) by (vm_compute; discriminate).
  assert (H2 : forallb trap_key [Tab] = true) by reflexivity.
  split; [exact (conj H1 H2)|].
  exact (proj1 (tab_cycle gallery_page [] three_images 1 [Tab] H1 H2)).
Defined.

(** ** The index [initGallery] passes to [open] *)

Lemma skipped_before_le (items : list GalleryItem) (index : nat) :
  (skipped_before items index <= index)%nat.
Proof.
  unfold skipped_before.
  etransitivity; [apply filter_length_le|]. apply firstn_le_length.
Qed.

Lemma own_image_position (items : list GalleryItem) :
  forall index img,
    nth_error items index = Some (Some img) ->
    nth_error (collect items) (index - skipped_before items index)
    = Some (image_of img).
Proof.
  induction items as [|it items IH]; intros [|k] img H; try discriminate.
  - cbn in H. injection H as ->. reflexivity.
  - cbn [nth_error] in H. specialize (IH k img H).
    pose proof (skipped_before_le items k) as Hle.
    destruct it as [x|].
    + change (skipped_before (Some x :: items) (S k))
        with (skipped_before items k).
      replace (S k - skipped_before items k)%nat
        with (S (k - skipped_before items k)) by lia.
      exact IH.
    + change (skipped_before (None :: items) (S k))
        with (S (skipped_before items k)).
      exact IH.
Qed.

(** The listener of the gallery entry at position [index] opens the
    viewer on all collected images at index [index], while the image
    of that entry sits in the collection as many places earlier as
    there are entries without an [img] before it. *)
Theorem activate_index
        (items : list GalleryItem) (index : nat) (img : Img) (w : World) :
  nth_error items index = Some (Some img) ->
  let w' := exec (activate items index) w in
  isOpen (this w') = true
  /\ images (this w') = collect items
  /\ currentIndex (this w') = Z.of_nat index
  /\ item_at (collect items)
       (Z.of_nat index - Z.of_nat (skipped_before items index))
     = Some (image_of img).
Proof.
  intros H w'. subst w'. unfold activate. rewrite H. rewrite open_this.
  cbn [isOpen images currentIndex]. repeat split.
  pose proof (skipped_before_le items index) as Hle.
  unfold item_at. destruct (Z.ltb_spec (Z.of_nat index
    - Z.of_nat (skipped_before items index)) 0); [lia|].
  rewrite <- Nat2Z.inj_sub, Nat2Z.id by assumption.
  now apply own_image_position.
Qed.

Lemma activate_index_witness :
  let items := [Some (mkImg None "a.jpg" "A"); None;
                Some (mkImg (Some "c-large.jpg") "c.jpg" "C")] in
  nth_error items 2 = Some (Some (mkImg (Some "c-large.jpg") "c.jpg" "C"))
  /\ currentIndex (this (exec (activate items 2) (new_Lightbox gallery_page)))
     = 2
  /\ item_at (collect items) 1 = Some (mkImage "c-large.jpg" "C").
Proof.
  cbv zeta.
  assert (H : nth_error [Some (mkImg None "a.jpg" "A"); None;
                         Some (mkImg (Some "c-large.jpg") "c.jpg" "C")] 2
              = Some (Some (mkImg (Some "c-large.jpg") "c.jpg" "C")))
    by reflexivity.
  split; [exact H|].
  destruct (activate_index _ 2 _ (new_Lightbox gallery_page) H)
    as (_ & _ & Hc & Hp).
  split; [exact Hc|exact Hp].
Defined.

(** When no entry before it lacks an [img], activating a gallery entry
    shows that entry's own image: the full-size reference when the
    entry gives a non-empty one, its [src] otherwise, with its
    alternative text. *)
Theorem activate_shows_own_image
        (items : list GalleryItem) (index : nat) (img : Img) (w : World) :
  nth_error items index = Some (Some img) ->
  skipped_before items index = O ->
  let w' := exec (activate items index) w in
  currentIndex (this w') = Z.of_nat index
  /\ shows (document w') (image_of img) (Z.of_nat index) (len (collect items))
  /\ imageSrc (document w')
     = match fullsize img with
       | Some s => if String.eqb s "" then img_src img else s
       | None => img_src img
       end.
Proof.
  intros H Hs w'.
  assert (Hp : item_at (collect items) (Z.of_nat index) = Some (image_of img)).
  { pose proof (own_image_position items index img H) as Hn.
    rewrite Hs, Nat.sub_0_r in Hn.
    unfold item_at. destruct (Z.ltb_spec (Z.of_nat index) 0); [lia|].
    now rewrite Nat2Z.id. }
  assert (Hc : currentIndex (this w') = Z.of_nat index).
  { subst w'. unfold activate. rewrite H. now rewrite open_this. }
  assert (Hsh : shows (document w') (image_of img) (Z.of_nat index)
                  (len (collect items))).
  { subst w'. unfold activate. rewrite H. now apply open_shows. }
  split; [exact Hc|]. split; [exact Hsh|].
  destruct Hsh as (-> & _). cbn [image_of src]. unfold media_ref.
  destruct (fullsize img); [apply or_else_eqb|reflexivity].
Qed.

Lemma activate_shows_own_image_witness :
  let items := [Some (mkImg None "a.jpg" "A");
                Some (mkImg (Some "b-large.jpg") "b.jpg" "B")] in
  (nth_error items 1 = Some (Some (mkImg (Some "b-large.jpg") "b.jpg" "B"))
   /\ skipped_before items 1 = O)
  /\ imageSrc (document (exec (activate items 1) (new_Lightbox gallery_page)))
     = "b-large.jpg".
Proof.
  cbv zeta.
  assert (H : nth_error [Some (mkImg None "a.jpg" "A");
                         Some (mkImg (Some "b-large.jpg") "b.jpg" "B")] 1
              = Some (Some (mkImg (Some "b-large.jpg") "b.jpg" "B")))
    by reflexivity.
  assert (Hs : skipped_before [Some (mkImg None "a.jpg" "A");
                               Some (mkImg (Some "b-large.jpg") "b.jpg" "B")] 1
               = O) by reflexivity.
  split; [exact (conj H Hs)|].
  exact (proj2 (proj2 (activate_shows_own_image _ 1 _
                         (new_Lightbox gallery_page) H Hs))).
Defined.

(** * The gallery filters *)

Lemma set_nth_length {A : Type} (n : nat) (f : A -> A) (l : list A) :
  List.length (Filters.set_nth n f l) = List.length l.
Proof.
  revert n. induction l as [|x l IH]; intros [|n]; cbn; try reflexivity.
  now rewrite IH.
Qed.

Lemma set_nth_nth_error {A : Type} (n k : nat) (f : A -> A) (l : list A) :
  nth_error (Filters.set_nth n f l) k
  = if Nat.eqb k n then option_map f (nth_error l k) else nth_error l k.
Proof.
  revert n k. induction l as [|x l IH]; intros [|n] [|k]; cbn;
    try reflexivity.
  - now destruct (Nat.eqb k n).
  - apply IH.
Qed.

Lemma set_nth_map {A B : Type} (n : nat) (f : A -> A) (g : A -> B)
      (l : list A) :
  (forall x, g (f x) = g x) ->
  map g (Filters.set_nth n f l) = map g l.
Proof.
  intro H. revert n. induction l as [|x l IH]; intros [|n]; cbn;
    try reflexivity.
  - now rewrite H.
  - now rewrite IH.
Qed.

Lemma filters_click_buttons (b : nat) (p : Filters.Page) (k : nat) :
  (b < List.length (Filters.buttons p))%nat ->
  nth_error (Filters.buttons (Filters.click b p)) k
  = option_map
      (fun x => Filters.mkButton (Filters.data_filter x) (Nat.eqb k b))
      (nth_error (Filters.buttons p) k).
Proof.
  intro Hb. unfold Filters.click.
  destruct (nth_error (Filters.buttons p) b) eqn:E.
  - cbn [Filters.buttons]. rewrite set_nth_nth_error, nth_error_map.
    destruct (Nat.eqb k b); now destruct (nth_error (Filters.buttons p) k).
  - apply nth_error_None in E. lia.
Qed.

(** After a click on a filter button, that button and no other is
    marked active, and every gallery entry is displayed exactly when
    the button's filter is [all] or equals the entry's category (a
    button without [data-filter] matching the entries without
    [data-category]); the other entries get [display: none]. *)
Theorem filter_click_result (b : nat) (p : Filters.Page) (button : Filters.Button) :
  nth_error (Filters.buttons p) b = Some button ->
  let p' := Filters.click b p in
  (forall k x, nth_error (Filters.buttons p') k = Some x ->
     Filters.active x = Nat.eqb k b)
  /\ List.length (Filters.buttons p') = List.length (Filters.buttons p)
  /\ (forall k e', nth_error (Filters.entries p') k = Some e' ->
        exists e, nth_error (Filters.entries p) k = Some e
          /\ Filters.data_category e' = Filters.data_category e
          /\ Filters.display e'
             = if Filters.same (Filters.data_filter button) (Some "all")
                  || Filters.same (Filters.data_category e)
                       (Filters.data_filter button)
               then "" else "none").
Proof.
  intros Hb p'.
  assert (Hlt : (b < List.length (Filters.buttons p))%nat)
    by (apply nth_error_Some; congruence).
  repeat split.
  - intros k x Hk. subst p'. rewrite filters_click_buttons in Hk by assumption.
    destruct (nth_error (Filters.buttons p) k); [|discriminate].
    cbn in Hk. now injection Hk as <-.
  - subst p'. unfold Filters.click. rewrite Hb. cbn [Filters.buttons].
    now rewrite set_nth_length, length_map.
  - intros k e' Hk. subst p'. unfold Filters.click in Hk. rewrite Hb in Hk.
    cbn [Filters.entries] in Hk. rewrite nth_error_map in Hk.
    destruct (nth_error (Filters.entries p) k) as [e|]; [|discriminate].
    cbn in Hk. injection Hk as <-. exists e. repeat split.
Qed.

Lemma filter_click_result_witness :
  let p := Filters.mkPage
             [Filters.mkButton (Some "all") true;
              Filters.mkButton (Some "events") false]
             [Filters.mkEntry (Some "events") "";
              Filters.mkEntry (Some "awards") "";
              Filters.mkEntry None ""] in
  nth_error (Filters.buttons p) 1 = Some (Filters.mkButton (Some "events") false)
  /\ List.length (Filters.buttons (Filters.click 1 p)) = 2%nat
  /\ map Filters.display (Filters.entries (Filters.click 1 p))
     = [""; "none"; "none"].
Proof.
  cbv zeta.
  split; [reflexivity|].
  split; [|reflexivity].
  exact (proj1 (proj2 (filter_click_result 1
    (Filters.mkPage
             [Filters.mkButton (Some "all") true;
              Filters.mkButton (Some "events") false]
             [Filters.mkEntry (Some "events") "";
              Filters.mkEntry (Some "awards") "";
              Filters.mkEntry None ""])
    (Filters.mkButton (Some "events") false) eq_refl))).
Defined.

(** The state of the filters depends on the last click only: a click
    on a button erases what any earlier click did, so clicking the
    same button twice is the same as once. *)
Theorem filter_click_last_wins (b1 b2 : nat) (p : Filters.Page) :
  (b2 < List.length (Filters.buttons p))%nat ->
  Filters.click b2 (Filters.click b1 p) = Filters.click b2 p.
Proof.
  intro Hb2.
  destruct (nth_error (Filters.buttons p) b1) as [button1|] eqn:E1.
  2:{ unfold Filters.click at 2. now rewrite E1. }
  assert (Hb1 : (b1 < List.length (Filters.buttons p))%nat)
    by (apply nth_error_Some; congruence).
  destruct (nth_error (Filters.buttons p) b2) as [button2|] eqn:E2.
  2:{ apply nth_error_None in E2. lia. }
  unfold Filters.click at 1 3.
  rewrite (filters_click_buttons b1 p b2 Hb1), E2. cbn [option_map].
  cbn [Filters.data_filter]. f_equal.
  - unfold Filters.click. rewrite E1. cbn [Filters.buttons]. f_equal.
    rewrite set_nth_map by reflexivity.
    rewrite map_map. reflexivity.
  - unfold Filters.click. rewrite E1. cbn [Filters.entries].
    rewrite map_map. reflexivity.
Qed.

Lemma filter_click_last_wins_witness :
  let p := Filters.mkPage
             [Filters.mkButton (Some "all") true;
              Filters.mkButton (Some "events") false]
             [Filters.mkEntry (Some "events") "";
              Filters.mkEntry (Some "awards") ""] in
  (0 < List.length (Filters.buttons p))%nat
  /\ Filters.click 0 (Filters.click 1 p) = Filters.click 0 p.
Proof.
  cbv zeta.
  assert (H : (0 < List.length
                     (Filters.buttons
                        (Filters.mkPage
                           [Filters.mkButton (Some "all") true;
                            Filters.mkButton (Some "events") false]
                           [Filters.mkEntry (Some "events") "";
                            Filters.mkEntry (Some "awards") ""])))%nat)
    by (cbn; lia).
  split; [exact H|].
  exact (filter_click_last_wins 1 0 _ H).
Defined.

(** * The mobile navigation *)

Lemma nav_of_bool_expanded (b : bool) :
  Nav.expanded (Nav.mkBar (Some (Nav.of_bool b)) b) = b.
Proof. now destruct b. Qed.

Lemma nav_coherent_toggleNav (s : Nav.State) :
  Nav.coherent s -> Nav.coherent (Nav.toggleNav s).
Proof.
  destruct s as [bar d]. unfold Nav.coherent. cbn [fst snd Nav.toggleNav].
  intros [He _]. rewrite He. cbn [Nav.menu_active].
  split; [|reflexivity].
  unfold Nav.expanded. cbn. now destruct (Nav.menu_active bar).
Qed.

Lemma nav_coherent_closeNav (s : Nav.State) : Nav.coherent (Nav.closeNav s).
Proof. destruct s as [bar d]. now split. Qed.

Lemma nav_coherent_handle (ev : Nav.Event) (s : Nav.State) :
  Nav.coherent s -> Nav.coherent (Nav.handle ev s).
Proof.
  intro H. destruct ev as [[| | |]|e]; cbn [Nav.handle Nav.click];
    try assumption; try apply nav_coherent_closeNav.
  - now apply nav_coherent_toggleNav.
  - unfold Nav.keydown. destruct (String.eqb _ _);
      [apply nav_coherent_closeNav|assumption].
Qed.

(** Starting with the menu closed (no [active] class, an
    [aria-expanded] that is not [true], no inline overflow on the
    body), after any clicks and key presses the toggle's
    [aria-expanded] reads true exactly when the menu is open, and the
    body's overflow is [hidden] exactly then and empty otherwise.
    This is about the listeners of [main.js] alone: the viewer of
    [gallery.js] writes the same overflow. *)
Theorem nav_coherent
        (bar : Nav.Bar) (d : Document) (evs : list Nav.Event) :
  Nav.menu_active bar = false ->
  Nav.expanded bar = false ->
  bodyOverflow d = "" ->
  Nav.coherent (Nav.handle_all evs (bar, d)).
Proof.
  intros Hm He Hd.
  assert (H0 : Nav.coherent (bar, d)).
  { unfold Nav.coherent. cbn [fst snd]. now rewrite Hm, He, Hd. }
  generalize dependent (bar, d). clear.
  induction evs as [|ev evs IH]; intros s H; [assumption|].
  cbn [Nav.handle_all fold_left]. apply IH. now apply nav_coherent_handle.
Qed.

Lemma nav_coherent_witness :
  (Nav.menu_active (Nav.mkBar None false) = false
   /\ Nav.expanded (Nav.mkBar None false) = false
   /\ bodyOverflow gallery_page = "")
  /\ Nav.coherent
       (Nav.handle_all
          [Nav.Click Nav.OnToggle; Nav.Click Nav.InMenu;
           Nav.Keydown (mkKeyboardEvent "Escape" false);
           Nav.Click Nav.OnToggle]
          (Nav.mkBar None false, gallery_page)).
Proof.
  split; [repeat split|].
  apply (nav_coherent (Nav.mkBar None false) gallery_page); reflexivity.
Defined.

(** On a coherent bar, two clicks on the toggle in a row bring the
    menu, what [aria-expanded] reads as and the scroll lock back to
    where they were. *)
Theorem nav_double_toggle (s : Nav.State) :
  Nav.coherent s ->
  let s2 := Nav.toggleNav (Nav.toggleNav s) in
  Nav.menu_active (fst s2) = Nav.menu_active (fst s)
  /\ Nav.expanded (fst s2) = Nav.expanded (fst s)
  /\ bodyOverflow (snd s2) = bodyOverflow (snd s).
Proof.
  destruct s as [bar d].
  unfold Nav.coherent. cbn [fst snd]. intros [He Ho].
  cbn. rewrite Ho, He. unfold Nav.expanded. cbn.
  now destruct (Nav.menu_active bar).
Qed.

Lemma nav_double_toggle_witness :
  Nav.coherent (Nav.mkBar (Some "false") false, gallery_page)
  /\ Nav.menu_active
       (fst (Nav.toggleNav
               (Nav.toggleNav (Nav.mkBar (Some "false") false, gallery_page))))
     = false.
Proof.
  assert (H : Nav.coherent (Nav.mkBar (Some "false") false, gallery_page))
    by (split; reflexivity).
  split; [exact H|].
  exact (proj1 (nav_double_toggle
                  (Nav.mkBar (Some "false") false, gallery_page) H)).
Defined.

(** * Both scripts on one page *)

Lemma site_click_outside {A : Type} (m : M A) (bar : Nav.Bar) (w : World) :
  snd (nav_on_site (Nav.click Nav.Outside) (gallery_on_site m (bar, w)))
  = mkWorld (this (exec m w)) (set_bodyOverflow "" (document (exec m w))).
Proof. reflexivity. Qed.

Lemma item_keydown_activates
      (items : list GalleryItem) (index : nat) (img : Img)
      (e : KeyboardEvent) (w : World) :
  nth_error items index = Some (Some img) ->
  key e = "Enter" \/ key e = " " ->
  item_keydown items index e w
  = (true, exec (open (collect items) (Z.of_nat index)) w).
Proof.
  intros H Hk. unfold item_keydown. rewrite H.
  assert (Ht : String.eqb (key e) "Enter" || String.eqb (key e) " " = true)
    by (destruct Hk as [-> | ->]; reflexivity).
  rewrite Ht. mred. now destruct (open _ _ w).
Qed.

Lemma keydown_entry_opens
      (items : list GalleryItem) (index : nat) (img : Img)
      (e : KeyboardEvent) (bar : Nav.Bar) (w : World) :
  nth_error items index = Some (Some img) ->
  key e = "Enter" \/ key e = " " ->
  keydown_entry items index e (bar, w)
  = (bar, exec (open (collect items) (Z.of_nat index)) w).
Proof.
  intros H Hk. unfold keydown_entry, gallery_on_site.
  assert (E1 : exec (item_keydown items index e) w
               = exec (open (collect items) (Z.of_nat index)) w).
  { unfold exec at 1. now rewrite (item_keydown_activates _ _ _ _ _ H Hk). }
  rewrite E1.
  assert (E2 : exec (handleKeydown e)
                 (exec (open (collect items) (Z.of_nat index)) w)
               = exec (open (collect items) (Z.of_nat index)) w).
  { rewrite handleKeydown_exec, open_this. cbn [isOpen negb].
    now destruct Hk as [-> | ->]. }
  rewrite E2. unfold nav_on_site, Nav.keydown.
  destruct (exec (open (collect items) (Z.of_nat index)) w) as [l d].
  now destruct Hk as [-> | ->].
Qed.

(** On a page that runs [main.js] (with a navigation toggle and menu)
    and [gallery.js], a click that opens the viewer, or a click on a
    navigation button or on the content of the open viewer, also
    reaches the document listener of the navigation, whose
    [closeNav()] clears the body's overflow: the viewer is open and
    the background scroll is not locked.  Opening with Enter or Space
    on the entry keeps the lock. *)
Theorem pointer_releases_scroll_lock
        (items : list GalleryItem) (index : nat) (img : Img)
        (bar : Nav.Bar) (w : World) :
  nth_error items index = Some (Some img) ->
  (let w' := snd (click_entry items index (bar, w)) in
   isOpen (this w') = true /\ bodyOverflow (document w') = "")
  /\ (forall t, isOpen (this w) = true ->
        t = OnPrev \/ t = OnNext \/ t = OnContent ->
        let w' := snd (click_overlay t (bar, w)) in
        isOpen (this w') = true /\ bodyOverflow (document w') = "")
  /\ (forall e, key e = "Enter" \/ key e = " " ->
        let w' := snd (keydown_entry items index e (bar, w)) in
        isOpen (this w') = true /\ bodyOverflow (document w') = "hidden").
Proof.
  intro H. split; [|split].
  - cbv zeta. unfold click_entry. rewrite site_click_outside.
    cbn [this document]. unfold activate. rewrite H, open_this.
    split; reflexivity.
  - intros t Ho Ht. cbv zeta. unfold click_overlay.
    rewrite site_click_outside. cbn [this document].
    split; [|reflexivity].
    destruct Ht as [-> | [-> | ->]]; cbn [click].
    + rewrite prev_this. now destruct (_ <=? 1).
    + rewrite next_this. now destruct (_ <=? 1).
    + assumption.
  - intros e Hk. cbv zeta.
    rewrite (keydown_entry_opens _ _ _ _ _ _ H Hk). cbn [snd].
    rewrite open_this.
    destruct (open_document (collect items) (Z.of_nat index) w)
      as (_ & -> & _).
    split; reflexivity.
Qed.

Lemma pointer_releases_scroll_lock_witness :
  let items := [Some (mkImg None "a.jpg" "A")] in
  nth_error items 0 = Some (Some (mkImg None "a.jpg" "A"))
  /\ bodyOverflow
       (document
          (snd (click_entry items 0
                  (Nav.mkBar (Some "false") false, new_Lightbox gallery_page))))
     = "".
Proof.
  cbv zeta.
  assert (H : nth_error [Some (mkImg None "a.jpg" "A")] 0
              = Some (Some (mkImg None "a.jpg" "A"))) by reflexivity.
  split; [exact H|].
  exact (proj2 (proj1 (pointer_releases_scroll_lock _ 0 _
                         (Nav.mkBar (Some "false") false)
                         (new_Lightbox gallery_page) H))).
Defined.

(** * The timeline *)

Lemma num_inj (a b : Z) : num a = num b -> a = b.
Proof.
  unfold num. intro H. apply DecimalZ.to_int_inj.
  assert (Hnz : forall z, Z.to_int z <> Decimal.Pos Decimal.Nil
                          /\ Z.to_int z <> Decimal.Neg Decimal.Nil).
  { intros [|p|p]; cbn; split; try discriminate;
      intro E; injection E as E;
      now apply DecimalPos.Unsigned.to_uint_nonnil in E. }
  assert (Hs : forall z, NilZero.int_of_string (NilZero.string_of_int (Z.to_int z))
                         = Some (Z.to_int z))
    by (intro z; apply NilZero.isi; apply Hnz).
  pose proof (Hs a) as Ha. rewrite H, Hs in Ha. now injection Ha.
Qed.

Lemma init_from_nth (items : list Timeline.Item) :
  forall start i,
    nth_error (Timeline.init_from start items) i
    = option_map (Timeline.init_item (start + i)) (nth_error items i).
Proof.
  induction items as [|it items IH]; intros start [|i]; cbn; try reflexivity.
  - now rewrite Nat.add_0_r.
  - rewrite IH. now rewrite Nat.add_succ_r.
Qed.

Lemma init_item_ids (index : nat) (it : Timeline.Item)
      (h : Timeline.Header) (c : Timeline.Content) :
  Timeline.header (Timeline.init_item index it) = Some h ->
  Timeline.content (Timeline.init_item index it) = Some c ->
  Timeline.id h = Some ("timeline-header-" ++ num (Z.of_nat index))
  /\ Timeline.content_id c = Some ("timeline-content-" ++ num (Z.of_nat index))
  /\ Timeline.aria_controls h = Timeline.content_id c
  /\ Timeline.aria_labelledby c = Timeline.id h.
Proof.
  unfold Timeline.init_item.
  destruct (Timeline.header it) as [h0|] eqn:Eh;
    destruct (Timeline.content it) as [c0|] eqn:Ec;
    cbn; intros Hh Hc; try congruence.
  injection Hh as <-. injection Hc as <-. repeat split.
Qed.

(** After [init()], the items of one timeline that have a header and a
    content carry pairwise distinct header ids and pairwise distinct
    content ids, and each pair is cross-referenced: the header's
    [aria-controls] is the content's id and the content's
    [aria-labelledby] is the header's id. *)
Theorem timeline_ids_distinct
        (items : list Timeline.Item) (i j : nat)
        (iti itj : Timeline.Item) (hi hj : Timeline.Header)
        (ci cj : Timeline.Content) :
  nth_error (Timeline.init items) i = Some iti ->
  nth_error (Timeline.init items) j = Some itj ->
  Timeline.header iti = Some hi -> Timeline.content iti = Some ci ->
  Timeline.header itj = Some hj -> Timeline.content itj = Some cj ->
  i <> j ->
  Timeline.id hi <> Timeline.id hj
  /\ Timeline.content_id ci <> Timeline.content_id cj
  /\ Timeline.aria_controls hi = Timeline.content_id ci
  /\ Timeline.aria_labelledby ci = Timeline.id hi.
Proof.
  unfold Timeline.init. rewrite !init_from_nth. cbn [Nat.add].
  intros Hi Hj Hhi Hci Hhj Hcj Hne.
  destruct (nth_error items i) as [xi|]; [|discriminate].
  destruct (nth_error items j) as [xj|]; [|discriminate].
  cbn in Hi, Hj. injection Hi as <-. injection Hj as <-.
  destruct (init_item_ids i xi hi ci Hhi Hci) as (Ei & Fi & Gi & Ki).
  destruct (init_item_ids j xj hj cj Hhj Hcj) as (Ej & Fj & _ & _).
  repeat split; try assumption.
  - rewrite Ei, Ej. intro E. injection E as E.
    apply num_inj in E. lia.
  - rewrite Fi, Fj. intro E. injection E as E.
    apply num_inj in E. lia.
Qed.

Lemma timeline_ids_distinct_witness :
  Timeline.id (Timeline.mkHeader (Some "timeline-header-0")
                 (Some "timeline-content-0") (Some "false") (Some "button")
                 (Some "0") 1)
  <> Timeline.id (Timeline.mkHeader (Some "timeline-header-1")
                    (Some "timeline-content-1") (Some "false") (Some "button")
                    (Some "0") 1).
Proof.
  exact (proj1 (timeline_ids_distinct
                  [plain_item "1998"; plain_item "2004"] 0 1 _ _ _ _ _ _
                  eq_refl eq_refl eq_refl eq_refl eq_refl eq_refl
                  (fun E : 0%nat = 1%nat =>
                     eq_ind 0%nat (fun n => match n with O => True | S _ => False end)
                            I 1%nat E))).
Defined.

(** The ids are numbered per timeline: two timelines of one page give
    the same header id and the same content id to their items at the
    same position. *)
Theorem timeline_ids_shared
        (items1 items2 : list Timeline.Item) (k : nat)
        (it1 it2 : Timeline.Item) (h1 h2 : Timeline.Header)
        (c1 c2 : Timeline.Content) :
  nth_error (Timeline.init items1) k = Some it1 ->
  nth_error (Timeline.init items2) k = Some it2 ->
  Timeline.header it1 = Some h1 -> Timeline.content it1 = Some c1 ->
  Timeline.header it2 = Some h2 -> Timeline.content it2 = Some c2 ->
  Timeline.id h1 = Timeline.id h2
  /\ Timeline.content_id c1 = Timeline.content_id c2.
Proof.
  unfold Timeline.init. rewrite !init_from_nth. cbn [Nat.add].
  intros H1 H2 Hh1 Hc1 Hh2 Hc2.
  destruct (nth_error items1 k) as [x1|]; [|discriminate].
  destruct (nth_error items2 k) as [x2|]; [|discriminate].
  cbn in H1, H2. injection H1 as <-. injection H2 as <-.
  destruct (init_item_ids k x1 h1 c1 Hh1 Hc1) as (E1 & F1 & _).
  destruct (init_item_ids k x2 h2 c2 Hh2 Hc2) as (E2 & F2 & _).
  split; congruence.
Qed.

Lemma timeline_ids_shared_witness :
  Timeline.id (Timeline.mkHeader (Some "timeline-header-0")
                 (Some "timeline-content-0") (Some "false") (Some "button")
                 (Some "0") 1)
  = Timeline.id (Timeline.mkHeader (Some "timeline-header-0")
                   (Some "timeline-content-0") (Some "false") (Some "button")
                   (Some "0") 1).
Proof.
  exact (proj1 (timeline_ids_shared
                  [plain_item "1998"] [plain_item "2004"; plain_item "2010"]
                  0 _ _ _ _ _ _
                  eq_refl eq_refl eq_refl eq_refl eq_refl eq_refl)).
Defined.

(** ** [toggle] *)

Lemma timeline_of_bool_true (b : bool) :
  String.eqb (Timeline.of_bool b) "true" = b.
Proof. now destruct b. Qed.

(** [toggle] on an item that has a header and a content flips what
    [aria-expanded] reads as, sets [aria-hidden] to the opposite of
    the new state, flips the [active] class, leaves the attributes
    coherent, and puts "<title> expanded" or "<title> collapsed"
    ("Item" standing in for a missing title) in the first live region,
    creating the region when there is none. *)
Theorem timeline_toggle_flips
        (it : Timeline.Item) (h : Timeline.Header) (c : Timeline.Content)
        (regions : list string) :
  Timeline.header it = Some h ->
  Timeline.content it = Some c ->
  exists h' c',
    Timeline.header (fst (Timeline.toggle (it, regions))) = Some h'
    /\ Timeline.content (fst (Timeline.toggle (it, regions))) = Some c'
    /\ Timeline.is_expanded h' = negb (Timeline.is_expanded h)
    /\ Timeline.aria_hidden c'
       = Some (Timeline.of_bool (Timeline.is_expanded h))
    /\ Timeline.active c' = negb (Timeline.active c)
    /\ Timeline.listeners h' = Timeline.listeners h
    /\ Timeline.coherent (fst (Timeline.toggle (it, regions)))
    /\ snd (Timeline.toggle (it, regions))
       = ((match Timeline.title it with Some t => t | None => "Item" end)
          ++ (if Timeline.is_expanded h then " collapsed" else " expanded"))
           :: tl regions.
Proof.
  intros Hh Hc. unfold Timeline.toggle. rewrite Hh, Hc.
  eexists. eexists. cbn [fst snd Timeline.header Timeline.content].
  split; [reflexivity|]. split; [reflexivity|].
  unfold Timeline.coherent, Timeline.is_expanded at 1 5 6, Timeline.announceChange.
  cbn. rewrite !timeline_of_bool_true, negb_involutive.
  repeat split.
  destruct (Timeline.is_expanded h), regions; reflexivity.
Qed.

Lemma timeline_toggle_flips_witness :
  snd (Timeline.toggle (plain_item "1998", [])) = ["1998 expanded"].
Proof.
  destruct (timeline_toggle_flips (plain_item "1998") _ _ [] eq_refl eq_refl)
    as (h' & c' & _ & _ & _ & _ & _ & _ & _ & H).
  exact H.
Defined.

Lemma toggle_item_indep (it : Timeline.Item) (r r' : list string) :
  fst (Timeline.toggle (it, r)) = fst (Timeline.toggle (it, r')).
Proof.
  unfold Timeline.toggle.
  now destruct (Timeline.header it), (Timeline.content it).
Qed.

Lemma toggle_coherent (it : Timeline.Item) (r : list string) :
  Timeline.coherent (fst (Timeline.toggle (it, r))).
Proof.
  destruct (Timeline.header it) as [h|] eqn:Hh.
  - destruct (Timeline.content it) as [c|] eqn:Hc.
    + unfold Timeline.toggle, Timeline.coherent. rewrite Hh, Hc.
      cbn. unfold Timeline.is_expanded. cbn.
      rewrite timeline_of_bool_true, negb_involutive. now split.
    + unfold Timeline.toggle, Timeline.coherent. rewrite Hh, Hc. cbn.
      now rewrite Hh, Hc.
  - unfold Timeline.toggle, Timeline.coherent. rewrite Hh. cbn.
    now rewrite Hh.
Qed.

Lemma toggle_twice (it : Timeline.Item) (r r' : list string) :
  Timeline.coherent it ->
  fst (Timeline.toggle (fst (Timeline.toggle (it, r)), r')) = it.
Proof.
  unfold Timeline.coherent, Timeline.toggle.
  destruct it as [[h|] [c|] t]; cbn; try reflexivity.
  destruct h as [i ac ae ro ti li], c as [ci al cr ah act].
  unfold Timeline.is_expanded. cbn.
  remember (match ae with Some v => String.eqb v "true" | None => false end)
    as b eqn:Eb.
  intros [He Hc]. subst ae ah.
  now rewrite timeline_of_bool_true, !negb_involutive.
Qed.

Lemma iter_toggle_parity (n : nat) :
  forall it r, Timeline.coherent it ->
    fst (Nat.iter n Timeline.toggle (it, r))
    = if Nat.even n then it else fst (Timeline.toggle (it, r)).
Proof.
  induction n as [n IH] using (well_founded_induction Wf_nat.lt_wf).
  intros it r Hc. destruct n as [|[|n]]; try reflexivity.
  rewrite !Nat.iter_succ. cbn [Nat.even].
  specialize (IH n ltac:(lia) it r Hc).
  destruct (Nat.iter n Timeline.toggle (it, r)) as [x rx] eqn:E.
  cbn [fst] in IH. rewrite <- IH.
  rewrite (surjective_pairing (Timeline.toggle (x, rx))).
  apply toggle_twice. rewrite IH.
  destruct (Nat.even n); [assumption|apply toggle_coherent].
Qed.

(** A click on a header runs [toggle] once for every [Timeline]
    instance that was constructed over its container.  On an item with
    coherent attributes the toggles cancel in pairs: with an even
    number of listeners the click leaves the item exactly as it was,
    with an odd number it toggles it once. *)
Theorem header_click_parity
        (it : Timeline.Item) (h : Timeline.Header) (regions : list string) :
  Timeline.header it = Some h ->
  Timeline.coherent it ->
  fst (Timeline.click_item (it, regions))
  = if Nat.even (Timeline.listeners h) then it
    else fst (Timeline.toggle (it, regions)).
Proof.
  intros Hh Hc. unfold Timeline.click_item. cbn [fst]. rewrite Hh.
  now apply iter_toggle_parity.
Qed.

Lemma header_click_parity_witness :
  let it := Timeline.init_item 0 (Timeline.init_item 0 (plain_item "1998")) in
  Timeline.coherent it
  /\ fst (Timeline.click_item (it, [])) = it.
Proof.
  cbv zeta.
  assert (Hc : Timeline.coherent
                 (Timeline.init_item 0 (Timeline.init_item 0 (plain_item "1998"))))
    by (split; reflexivity).
  split; [exact Hc|].
  exact (header_click_parity
           (Timeline.init_item 0 (Timeline.init_item 0 (plain_item "1998")))
           (Timeline.mkHeader (Some "timeline-header-0")
              (Some "timeline-content-0") (Some "false") (Some "button")
              (Some "0") 2)
           [] eq_refl Hc).
Defined.

(** ** Listeners pile up *)

Lemma item_of_init (f : list Timeline.Item -> list Timeline.Item)
      (g : nat -> Timeline.Item -> Timeline.Item) (p : Timeline.Page)
      (t i : nat) :
  (forall items k, nth_error (f items) k = option_map (g k) (nth_error items k)) ->
  Timeline.item_of (Timeline.mkPage (map f (Timeline.timelines p))
                      (Timeline.live p)) t i
  = option_map (g i) (Timeline.item_of p t i).
Proof.
  intro H. unfold Timeline.item_of. cbn [Timeline.timelines].
  rewrite nth_error_map.
  destruct (nth_error (Timeline.timelines p) t); [apply H|reflexivity].
Qed.

Lemma init_nth (items : list Timeline.Item) (k : nat) :
  nth_error (Timeline.init items) k
  = option_map (Timeline.init_item k) (nth_error items k).
Proof. unfold Timeline.init. now rewrite init_from_nth. Qed.

Lemma item_of_button (b : bool) (p : Timeline.Page) (t i : nat) :
  Timeline.item_of
    (if b then Timeline.click_expand_all p else Timeline.click_collapse_all p)
    t i
  = option_map (fun it => Timeline.set_state b (Timeline.init_item i it))
      (Timeline.item_of p t i).
Proof.
  destruct b; unfold Timeline.click_expand_all, Timeline.click_collapse_all;
    [apply (item_of_init _
              (fun k it => Timeline.set_state true (Timeline.init_item k it)))
    |apply (item_of_init _
              (fun k it => Timeline.set_state false (Timeline.init_item k it)))];
    intros items k;
    unfold Timeline.expandAll, Timeline.collapseAll;
    rewrite nth_error_map, init_nth;
    now destruct (nth_error items k).
Qed.

Lemma item_of_initTimelines (e c : bool) (p : Timeline.Page) (t i : nat) :
  Timeline.item_of (Timeline.initTimelines e c p) t i
  = option_map
      (fun it => Nat.iter (Timeline.constructions e c t)
                   (Timeline.init_item i) it)
      (Timeline.item_of p t i).
Proof.
  unfold Timeline.initTimelines, Timeline.item_of, Timeline.constructions.
  cbn [Timeline.timelines].
  destruct (e || c); cbn [andb].
  - destruct (Timeline.timelines p) as [|first others]; [now destruct t|].
    destruct t as [|t]; cbn [map nth_error Nat.eqb].
    + rewrite !init_nth. now destruct (nth_error first i).
    + rewrite nth_error_map.
      destruct (nth_error others t); [|reflexivity].
      cbn [option_map]. rewrite init_nth. now destruct (nth_error _ i).
  - rewrite nth_error_map.
    destruct (nth_error (Timeline.timelines p) t); [|reflexivity].
    cbn [option_map]. rewrite init_nth. now destruct (nth_error _ i).
Qed.

Lemma init_item_wired (i : nat) (it : Timeline.Item)
      (h : Timeline.Header) (c : Timeline.Content) :
  Timeline.header it = Some h -> Timeline.content it = Some c ->
  exists h' c',
    Timeline.header (Timeline.init_item i it) = Some h'
    /\ Timeline.content (Timeline.init_item i it) = Some c'
    /\ Timeline.listeners h' = S (Timeline.listeners h)
    /\ Timeline.coherent (Timeline.init_item i it)
    /\ Timeline.is_expanded h' = false
    /\ Timeline.active c' = Timeline.active c.
Proof.
  intros Hh Hc. unfold Timeline.init_item, Timeline.coherent.
  rewrite Hh, Hc. cbn. eexists. eexists. repeat split.
Qed.

Lemma set_state_wired (b : bool) (it : Timeline.Item)
      (h : Timeline.Header) (c : Timeline.Content) :
  Timeline.header it = Some h -> Timeline.content it = Some c ->
  exists h' c',
    Timeline.header (Timeline.set_state b it) = Some h'
    /\ Timeline.content (Timeline.set_state b it) = Some c'
    /\ Timeline.listeners h' = Timeline.listeners h
    /\ Timeline.coherent (Timeline.set_state b it)
    /\ Timeline.is_expanded h' = b
    /\ Timeline.aria_hidden c' = Some (Timeline.of_bool (negb b))
    /\ Timeline.active c' = b.
Proof.
  intros Hh Hc. unfold Timeline.set_state, Timeline.coherent.
  rewrite Hh, Hc. cbn. eexists. eexists.
  unfold Timeline.is_expanded. cbn.
  destruct b; repeat split; reflexivity.
Qed.

Lemma iter_init_item_wired (n i : nat) (it : Timeline.Item)
      (h : Timeline.Header) (c : Timeline.Content) :
  Timeline.header it = Some h -> Timeline.content it = Some c ->
  (0 < n)%nat ->
  exists h' c',
    Timeline.header (Nat.iter n (Timeline.init_item i) it) = Some h'
    /\ Timeline.content (Nat.iter n (Timeline.init_item i) it) = Some c'
    /\ Timeline.listeners h' = (Timeline.listeners h + n)%nat
    /\ Timeline.coherent (Nat.iter n (Timeline.init_item i) it).
Proof.
  intros Hh Hc Hn. destruct n as [|n]; [lia|]. clear Hn.
  induction n as [|n IH].
  - destruct (init_item_wired i it h c Hh Hc) as (h' & c' & A & B & C & D & _).
    exists h', c'. cbn [Nat.iter nat_rect]. repeat split; try assumption. lia.
  - destruct IH as (h1 & c1 & A1 & B1 & C1 & _).
    rewrite Nat.iter_succ.
    destruct (init_item_wired i _ h1 c1 A1 B1) as (h' & c' & A & B & C & D & _).
    exists h', c'. repeat split; try assumption. lia.
Qed.

Lemma click_buttons_wired (clicks : list bool) :
  forall (p : Timeline.Page) (t i : nat) (it : Timeline.Item)
         (h : Timeline.Header) (c : Timeline.Content),
    Timeline.item_of p t i = Some it ->
    Timeline.header it = Some h -> Timeline.content it = Some c ->
    Timeline.coherent it ->
    exists it' h' c',
      Timeline.item_of (Timeline.click_buttons clicks p) t i = Some it'
      /\ Timeline.header it' = Some h'
      /\ Timeline.content it' = Some c'
      /\ Timeline.listeners h'
         = (Timeline.listeners h + List.length clicks)%nat
      /\ Timeline.coherent it'.
Proof.
  induction clicks as [|b clicks IH]; intros p t i it h c Hit Hh Hc Hco.
  - exists it, h, c. cbn. repeat split; try assumption. lia.
  - cbn [Timeline.click_buttons fold_left].
    pose proof (item_of_button b p t i) as Hb. rewrite Hit in Hb.
    cbn [option_map] in Hb.
    destruct (init_item_wired i it h c Hh Hc) as (h1 & c1 & A1 & B1 & C1 & _).
    destruct (set_state_wired b _ h1 c1 A1 B1)
      as (h2 & c2 & A2 & B2 & C2 & D2 & _).
    destruct (IH _ t i _ h2 c2 Hb A2 B2 D2)
      as (it' & h' & c' & Hi & Hh' & Hc' & Hl & Hco').
    exists it', h', c'. repeat split; try assumption.
    cbn [List.length]. lia.
Qed.

(** Every construction of a [Timeline] over a container adds one more
    click listener to each of its headers.  After [initTimelines()]
    and any clicks on the expand-all and collapse-all buttons, the
    header of an item that has a header and a content holds the
    listeners it had, plus one per construction at start-up (two over
    the first timeline when the page has such a button, one
    otherwise), plus one per click on those buttons. *)
Theorem timeline_listener_count
        (e c : bool) (clicks : list bool) (p : Timeline.Page) (t i : nat)
        (it : Timeline.Item) (h : Timeline.Header) (c0 : Timeline.Content) :
  Timeline.clickable e c clicks = true ->
  Timeline.item_of p t i = Some it ->
  Timeline.header it = Some h ->
  Timeline.content it = Some c0 ->
  exists it' h',
    Timeline.item_of
      (Timeline.click_buttons clicks (Timeline.initTimelines e c p)) t i
    = Some it'
    /\ Timeline.header it' = Some h'
    /\ Timeline.listeners h'
       = (Timeline.listeners h + Timeline.constructions e c t
          + List.length clicks)%nat
    /\ Timeline.coherent it'.
Proof.
  intros _ Hit Hh Hc.
  pose proof (item_of_initTimelines e c p t i) as H0. rewrite Hit in H0.
  cbn [option_map] in H0.
  assert (Hpos : (0 < Timeline.constructions e c t)%nat)
    by (unfold Timeline.constructions; destruct (_ && _); lia).
  destruct (iter_init_item_wired _ i it h c0 Hh Hc Hpos)
    as (h1 & c1 & A1 & B1 & C1 & D1).
  destruct (click_buttons_wired clicks _ t i _ h1 c1 H0 A1 B1 D1)
    as (it' & h' & c' & Hi & Hh' & _ & Hl & Hco).
  exists it', h'. repeat split; try assumption. lia.
Qed.

Lemma timeline_listener_count_witness :
  (Timeline.clickable true true [true; false] = true
   /\ Timeline.item_of two_timelines 0 1 = Some (plain_item "2004"))
  /\ exists it' h',
       Timeline.item_of
         (Timeline.click_buttons [true; false]
            (Timeline.initTimelines true true two_timelines)) 0 1
       = Some it'
       /\ Timeline.header it' = Some h'
       /\ Timeline.listeners h' = 4%nat.
Proof.
  split; [split; reflexivity|].
  destruct (timeline_listener_count true true [true; false] two_timelines
              0 1 (plain_item "2004") _ _ eq_refl eq_refl eq_refl eq_refl)
    as (it' & h' & A & B & C & _).
  exists it', h'. repeat split; assumption.
Defined.

(** On markup no script has touched, a click on the header of an item
    toggles it when the number of constructions over its timeline plus
    the number of clicks on the expand-all and collapse-all buttons so
    far is odd, and leaves the item exactly as it was when that number
    is even: with an expand-all or collapse-all button on the page,
    the headers of the first timeline do not respond until such a
    button is clicked. *)
Theorem header_click_after_setup
        (e c : bool) (clicks : list bool) (p : Timeline.Page) (t i : nat)
        (it : Timeline.Item) (h : Timeline.Header) (c0 : Timeline.Content) :
  Timeline.clickable e c clicks = true ->
  Timeline.item_of p t i = Some it ->
  Timeline.header it = Some h ->
  Timeline.content it = Some c0 ->
  Timeline.listeners h = O ->
  exists it',
    Timeline.item_of
      (Timeline.click_buttons clicks (Timeline.initTimelines e c p)) t i
    = Some it'
    /\ forall regions,
         fst (Timeline.click_item (it', regions))
         = if Nat.even (Timeline.constructions e c t + List.length clicks)
           then it'
           else fst (Timeline.toggle (it', regions)).
Proof.
  intros _ Hit Hh Hc Hl.
  pose proof (item_of_initTimelines e c p t i) as H0. rewrite Hit in H0.
  cbn [option_map] in H0.
  assert (Hpos : (0 < Timeline.constructions e c t)%nat)
    by (unfold Timeline.constructions; destruct (_ && _); lia).
  destruct (iter_init_item_wired _ i it h c0 Hh Hc Hpos)
    as (h1 & c1 & A1 & B1 & C1 & D1).
  destruct (click_buttons_wired clicks _ t i _ h1 c1 H0 A1 B1 D1)
    as (it' & h' & c' & A & B & _ & C & D).
  exists it'. split; [assumption|]. intro regions.
  unfold Timeline.click_item. cbn [fst]. rewrite B.
  rewrite iter_toggle_parity by assumption.
  rewrite C, C1, Hl. reflexivity.
Qed.

Lemma header_click_after_setup_witness :
  (Timeline.item_of two_timelines 0 0 = Some (plain_item "1998")
   /\ Timeline.item_of two_timelines 1 0 = Some (plain_item "2010"))
  /\ (exists it',
        Timeline.item_of (Timeline.initTimelines true false two_timelines) 0 0
        = Some it'
        /\ fst (Timeline.click_item (it', [])) = it')
  /\ (exists it',
        Timeline.item_of (Timeline.initTimelines true false two_timelines) 1 0
        = Some it'
        /\ fst (Timeline.click_item (it', []))
           = fst (Timeline.toggle (it', []))).
Proof.
  split; [split; reflexivity|]. split.
  - destruct (header_click_after_setup true false [] two_timelines 0 0
                (plain_item "1998") _ _ eq_refl eq_refl eq_refl eq_refl eq_refl)
      as (it' & A & B).
    exists it'. split; [exact A|exact (B [])].
  - destruct (header_click_after_setup true false [] two_timelines 1 0
                (plain_item "2010") _ _ eq_refl eq_refl eq_refl eq_refl eq_refl)
      as (it' & A & B).
    exists it'. split; [exact A|exact (B [])].
Defined.

(** ** Expand all, collapse all *)

(** After a click on the expand-all button every item of every
    timeline that has a header and a content is expanded, whatever its
    state before: [aria-expanded] is [true], [aria-hidden] is [false]
    and the content has the [active] class.  After a click on the
    collapse-all button it is the opposite.  Neither click announces
    anything. *)
Theorem expand_collapse_all
        (b : bool) (p : Timeline.Page) (t i : nat)
        (it' : Timeline.Item) (h' : Timeline.Header) (c' : Timeline.Content) :
  let p' := if b then Timeline.click_expand_all p
            else Timeline.click_collapse_all p in
  Timeline.item_of p' t i = Some it' ->
  Timeline.header it' = Some h' ->
  Timeline.content it' = Some c' ->
  Timeline.aria_expanded h' = Some (Timeline.of_bool b)
  /\ Timeline.aria_hidden c' = Some (Timeline.of_bool (negb b))
  /\ Timeline.active c' = b
  /\ Timeline.live p' = Timeline.live p.
Proof.
  intros p' Hit Hh Hc. subst p'.
  rewrite item_of_button in Hit.
  destruct (Timeline.item_of p t i) as [it|]; [|discriminate].
  cbn [option_map] in Hit. injection Hit as <-.
  assert (Hlive : Timeline.live
                    (if b then Timeline.click_expand_all p
                     else Timeline.click_collapse_all p) = Timeline.live p)
    by now destruct b.
  destruct (Timeline.header it) as [h|] eqn:Eh.
  - destruct (Timeline.content it) as [c|] eqn:Ec.
    + unfold Timeline.init_item, Timeline.set_state in Hh, Hc.
      rewrite Eh, Ec in Hh, Hc. cbn in Hh, Hc.
      injection Hh as <-. injection Hc as <-.
      cbn. repeat split. exact Hlive.
    + exfalso. unfold Timeline.init_item, Timeline.set_state in Hc.
      rewrite Eh, Ec in Hc. cbn in Hc. rewrite Eh, Ec in Hc. congruence.
  - exfalso. unfold Timeline.init_item, Timeline.set_state in Hh.
    rewrite Eh in Hh. cbn in Hh. rewrite Eh in Hh. congruence.
Qed.

Lemma expand_collapse_all_witness :
  exists it' h' c',
    Timeline.item_of (Timeline.click_expand_all two_timelines) 1 0 = Some it'
    /\ Timeline.header it' = Some h'
    /\ Timeline.content it' = Some c'
    /\ Timeline.aria_expanded h' = Some "true"
    /\ Timeline.active c' = true.
Proof.
  eexists. eexists. eexists.
  split; [reflexivity|]. split; [reflexivity|]. split; [reflexivity|].
  destruct (expand_collapse_all true two_timelines 1 0 _ _ _
              eq_refl eq_refl eq_refl) as (A & _ & C & _).
  split; [exact A|exact C].
Defined.

(** * The form validator *)

(** ** The matcher decides the language *)

Lemma append_nil_inv (a b : string) : a ++ b = "" -> a = "" /\ b = "".
Proof. destruct a; cbn; [auto|discriminate]. Qed.

Lemma string_append_nil_r (s : string) : s ++ "" = s.
Proof. induction s as [|c s IH]; cbn; [reflexivity|now rewrite IH]. Qed.

Lemma string_append_assoc (a b c : string) : (a ++ b) ++ c = a ++ (b ++ c).
Proof. induction a as [|x a IH]; cbn; [reflexivity|now rewrite IH]. Qed.

Lemma matches_nil_nullable (r : Form.re) (w : string) :
  Form.matches r w -> w = "" -> Form.nullable r = true.
Proof.
  induction 1 as [|p c Hp|r1 r2 s1 s2 _ IH1 _ IH2| |r s1 s2 _ _ _ _];
    intro E; try reflexivity; try discriminate.
  apply append_nil_inv in E as [E1 E2]. cbn. now rewrite IH1, IH2.
Qed.

Lemma nullable_matches_nil (r : Form.re) :
  Form.nullable r = true -> Form.matches r "".
Proof.
  induction r as [| |p|r1 IH1 r2 IH2|r IH]; cbn; intro H;
    try discriminate.
  - constructor.
  - apply andb_true_iff in H as [H1 H2].
    change "" with ("" ++ ""). constructor; auto.
  - constructor.
Qed.

Lemma deriv_complete (r : Form.re) (w : string) :
  Form.matches r w ->
  forall c s, w = String c s ->
    exists d, In d (Form.deriv c r) /\ Form.matches d s.
Proof.
  induction 1 as [|p c0 Hp|r1 r2 s1 s2 H1 IH1 H2 IH2|
                  |r s1 s2 H1 IH1 H2 IH2]; intros c s E; try discriminate.
  - injection E as -> <-. exists Form.Eps. cbn. rewrite Hp.
    split; [now left|constructor].
  - destruct s1 as [|c1 s1]; cbn in E.
    + destruct (IH2 c s E) as (d & Hd & Hm). exists d. split; [|assumption].
      cbn. rewrite (matches_nil_nullable r1 "" H1 eq_refl).
      apply in_or_app. now right.
    + injection E as -> <-.
      destruct (IH1 c s1 eq_refl) as (d & Hd & Hm).
      exists (Form.Seq d r2). split; [|now constructor].
      cbn. apply in_or_app. left.
      now apply (in_map (fun x => Form.Seq x r2)).
  - destruct s1 as [|c1 s1]; cbn in E.
    + exact (IH2 c s E).
    + injection E as -> <-.
      destruct (IH1 c s1 eq_refl) as (d & Hd & Hm).
      exists (Form.Seq d (Form.Star r)). split; [|now constructor].
      cbn. now apply (in_map (fun x => Form.Seq x (Form.Star r))).
Qed.

Lemma deriv_sound (r : Form.re) :
  forall c d s, In d (Form.deriv c r) -> Form.matches d s ->
    Form.matches r (String c s).
Proof.
  induction r as [| |p|r1 IH1 r2 IH2|r IH]; intros c d s Hd Hm;
    cbn in Hd; try contradiction.
  - destruct (p c) eqn:Hp; [|contradiction].
    destruct Hd as [<-|[]]. inversion Hm; subst. now constructor.
  - apply in_app_or in Hd as [Hd|Hd].
    + apply in_map_iff in Hd as (d1 & <- & Hd1).
      inversion Hm as [| |? ? t1 t2 Ht1 Ht2| |]; subst.
      change (String c (t1 ++ t2)) with (String c t1 ++ t2).
      constructor; [|assumption]. now apply (IH1 c d1).
    + destruct (Form.nullable r1) eqn:Hn; [|contradiction].
      change (String c s) with ("" ++ String c s).
      constructor; [now apply nullable_matches_nil|now apply (IH2 c d)].
  - apply in_map_iff in Hd as (d1 & <- & Hd1).
    inversion Hm as [| |? ? t1 t2 Ht1 Ht2| |]; subst.
    change (String c (t1 ++ t2)) with (String c t1 ++ t2).
    constructor; [|assumption]. now apply (IH c d1).
Qed.

Lemma test_all_spec (s : string) :
  forall rs, Form.test_all rs s = true
             <-> exists r, In r rs /\ Form.matches r s.
Proof.
  induction s as [|c s IH]; intro rs; cbn.
  - rewrite existsb_exists. split; intros (r & Hr & H); exists r;
      (split; [assumption|]).
    + now apply nullable_matches_nil.
    + now apply (matches_nil_nullable r "").
  - rewrite IH. split.
    + intros (d & Hd & Hm). apply in_flat_map in Hd as (r & Hr & Hd).
      exists r. split; [assumption|]. now apply (deriv_sound r c d).
    + intros (r & Hr & Hm).
      destruct (deriv_complete r _ Hm c s eq_refl) as (d & Hd & Hmd).
      exists d. split; [|assumption]. apply in_flat_map. eauto.
Qed.

Lemma test_spec (r : Form.re) (s : string) :
  Form.test r s = true <-> Form.matches r s.
Proof.
  unfold Form.test. rewrite test_all_spec. split.
  - intros (r' & [<-|[]] & H). exact H.
  - intro H. exists r. split; [now left|assumption].
Qed.

(** ** The e-mail rule *)

Lemma class_inv (p : ascii -> bool) (s : string) :
  Form.matches (Form.Class p) s -> exists c, s = String c "" /\ p c = true.
Proof. intro H. inversion H; subst. eauto. Qed.

Lemma star_class (p : ascii -> bool) (s : string) :
  Form.matches (Form.Star (Form.Class p)) s <-> Form.all_chars p s = true.
Proof.
  split.
  - intro H. remember (Form.Star (Form.Class p)) as r eqn:Er.
    induction H as [| | | |r s1 s2 H1 _ H2 IH2]; try discriminate.
    + reflexivity.
    + injection Er as ->. apply class_inv in H1 as (c & -> & Hc).
      cbn. now rewrite Hc, IH2.
  - induction s as [|c s IH]; cbn; intro H; [constructor|].
    apply andb_true_iff in H as [Hc Hs].
    change (String c s) with (String c "" ++ s).
    constructor; [now constructor|auto].
Qed.

Lemma plus_class (p : ascii -> bool) (s : string) :
  Form.matches (Form.Plus (Form.Class p)) s
  <-> s <> "" /\ Form.all_chars p s = true.
Proof.
  unfold Form.Plus. split.
  - intro H. inversion H as [| |? ? s1 s2 H1 H2| |]; subst.
    apply class_inv in H1 as (c & -> & Hc). apply star_class in H2.
    cbn. rewrite Hc, H2. split; [discriminate|reflexivity].
  - intros [Hne H]. destruct s as [|c s]; [contradiction|].
    cbn in H. apply andb_true_iff in H as [Hc Hs].
    change (String c s) with (String c "" ++ s).
    constructor; [now constructor|now apply star_class].
Qed.

Lemma emailRegex_matches (s : string) :
  Form.matches Form.emailRegex s
  <-> exists a b c,
        s = a ++ "@" ++ b ++ "." ++ c
        /\ (a <> "" /\ Form.all_chars Form.not_space_at a = true)
        /\ (b <> "" /\ Form.all_chars Form.not_space_at b = true)
        /\ (c <> "" /\ Form.all_chars Form.not_space_at c = true).
Proof.
  unfold Form.emailRegex. split.
  - intro H.
    inversion H as [| |? ? a s2 Ha H2| |]; subst.
    inversion H2 as [| |? ? at_ s3 Hat H3| |]; subst.
    inversion H3 as [| |? ? b s4 Hb H4| |]; subst.
    inversion H4 as [| |? ? dot c Hdot Hc| |]; subst.
    apply class_inv in Hat as (x & -> & Hx). apply Ascii.eqb_eq in Hx as <-.
    apply class_inv in Hdot as (y & -> & Hy). apply Ascii.eqb_eq in Hy as <-.
    exists a, b, c. split; [reflexivity|].
    split; [|split]; now apply plus_class.
  - intros (a & b & c & -> & Ha & Hb & Hc).
    constructor; [now apply plus_class|].
    change ("@" ++ b ++ "." ++ c) with (String "@" "" ++ (b ++ "." ++ c)).
    constructor; [now constructor|].
    constructor; [now apply plus_class|].
    change ("." ++ c) with (String "." "" ++ c).
    constructor; [now constructor|now apply plus_class].
Qed.

(** The e-mail pattern accepts exactly the strings of the form
    [a@b.c] in which [a], [b] and [c] are non-empty and hold neither
    white space nor [@]: one [@], something before it, and after it a
    dot with something on both sides.  [b] and [c] may hold further
    dots. *)
Theorem email_accepts (s : string) :
  Form.test Form.emailRegex s = true
  <-> exists a b c,
        s = a ++ "@" ++ b ++ "." ++ c
        /\ (a <> "" /\ Form.all_chars Form.not_space_at a = true)
        /\ (b <> "" /\ Form.all_chars Form.not_space_at b = true)
        /\ (c <> "" /\ Form.all_chars Form.not_space_at c = true).
Proof. rewrite test_spec. apply emailRegex_matches. Qed.

Example email_examples :
  Form.test Form.emailRegex "ravi@example.gov.in" = true
  /\ Form.test Form.emailRegex "ravi@example" = false
  /\ Form.test Form.emailRegex "ravi @example.in" = false
  /\ Form.test Form.emailRegex "a@b@c.in" = false
  /\ Form.test Form.emailRegex "@example.in" = false
  /\ Form.test Form.emailRegex "ravi@example." = false.
Proof. repeat split. Qed.

Lemma email_accepts_witness :
  Form.test Form.emailRegex "ravi@example.in" = true
  /\ exists a b c, "ravi@example.in" = a ++ "@" ++ b ++ "." ++ c /\ c <> "".
Proof.
  assert (H : Form.test Form.emailRegex "ravi@example.in" = true)
    by reflexivity.
  split; [exact H|].
  destruct (proj1 (email_accepts "ravi@example.in") H)
    as (a & b & c & E & _ & _ & Hc & _).
  exists a, b, c. split; assumption.
Defined.

(** ** The required rule and [trim] *)

Lemma trim_start_nil (s : string) :
  Form.trim_start s = "" <-> Form.all_chars Form.is_space s = true.
Proof.
  induction s as [|c s IH]; cbn; [tauto|].
  destruct (Form.is_space c); cbn; [exact IH|].
  split; discriminate.
Qed.

Lemma trim_start_head (s : string) (c : ascii) (t : string) :
  Form.trim_start s = String c t -> Form.is_space c = false.
Proof.
  induction s as [|x s IH]; cbn; [discriminate|].
  destruct (Form.is_space x) eqn:E; [exact IH|].
  intro H. now injection H as <- _.
Qed.

Lemma trim_end_head (c : ascii) (t : string) :
  Form.is_space c = false -> Form.trim_end (String c t) <> "".
Proof.
  intro H. cbn. destruct (Form.trim_end t); [rewrite H|]; discriminate.
Qed.

Lemma trim_nil (s : string) :
  Form.trim s = "" <-> Form.all_chars Form.is_space s = true.
Proof.
  unfold Form.trim. rewrite <- trim_start_nil.
  destruct (Form.trim_start s) as [|c t] eqn:E.
  - cbn. tauto.
  - split; [|discriminate]. intro H. exfalso.
    now apply (trim_end_head c t (trim_start_head s c t E)).
Qed.

Lemma first_failure_app (rs1 rs2 : list Form.Rule) (v : string) :
  Form.first_failure (rs1 ++ rs2) v
  = match Form.first_failure rs1 v with
    | Some m => Some m
    | None => Form.first_failure rs2 v
    end.
Proof.
  induction rs1 as [|r rs1 IH]; cbn; [reflexivity|].
  now destruct (Form.rule_test r v).
Qed.

(** A required field whose value holds nothing but white space (or
    nothing at all) is rejected with "This field is required" before
    any other rule is looked at; on any other value the [required]
    attribute makes no difference to the outcome. *)
Theorem required_rule
        (regexp_test : string -> string -> bool) (input : Form.Input)
        (value : string) :
  Form.required input = true ->
  let optional :=
    Form.mkInput (Form.name input) (Form.type input) false
      (Form.minLength input) (Form.maxLength input) (Form.pattern input)
      (Form.title input) in
  Form.first_failure (Form.getValidationRules regexp_test input) value
  = if Form.all_chars Form.is_space value
    then Some "This field is required"
    else Form.first_failure (Form.getValidationRules regexp_test optional)
           value.
Proof.
  intros Hr optional. unfold Form.getValidationRules. rewrite Hr.
  rewrite first_failure_app.
  cbn [Form.first_failure Form.rule_test Form.message].
  unfold Form.is_empty at 1.
  destruct (Form.all_chars Form.is_space value) eqn:Ea.
  - apply trim_nil in Ea. rewrite Ea. reflexivity.
  - destruct (String.eqb (Form.trim value) "") eqn:E.
    + apply String.eqb_eq, trim_nil in E. congruence.
    + reflexivity.
Qed.

Lemma required_rule_witness :
  Form.required email_input = true
  /\ Form.first_failure (Form.getValidationRules (fun _ _ => true) email_input)
       "   "
     = Some "This field is required".
Proof.
  split; [reflexivity|].
  exact (required_rule (fun _ _ => true) email_input "   " eq_refl).
Defined.



(** ** What the page shows after a validation *)

(** Starting from a field whose group holds at most one error
    element, [validateField] leaves the page in one of two states.  If
    every rule passes, the input has no [error] class, no
    [aria-invalid], no [aria-describedby], and the group holds no
    error element.  Otherwise the input has the [error] class and
    [aria-invalid="true"], the group holds exactly one error element,
    its text is the message of the first failing rule, and its id is
    the input's [aria-describedby].  Validating again without a change
    of value changes nothing. *)
Theorem validateField_view (f : Form.Field) :
  (List.length (Form.errors (Form.view f)) <= 1)%nat ->
  let ok := fst (Form.validateField f) in
  let f' := snd (Form.validateField f) in
  let error_id := Form.name (Form.element f) ++ "-error" in
  Form.view f'
  = (if ok then Form.mkView false None None []
     else Form.mkView true (Some "true") (Some error_id)
            [(error_id,
              match Form.first_failure (Form.rules f) (Form.value f) with
              | Some msg => msg
              | None => ""
              end)])
  /\ (ok = true
      <-> Form.first_failure (Form.rules f) (Form.value f) = None)
  /\ Form.validateField f' = Form.validateField f.
Proof.
  intros Hle ok f' error_id. subst ok f' error_id.
  unfold Form.validateField.
  destruct (Form.first_failure (Form.rules f) (Form.value f)) as [msg|] eqn:E;
    cbn [fst snd Form.view Form.rules Form.value Form.element];
    rewrite E; unfold Form.showFieldError, Form.clearFieldError;
    cbn [Form.errors];
    destruct (Form.errors (Form.view f)) as [|x [|y l]];
    cbn in Hle; try lia; cbn.
  all: repeat split; try reflexivity; try discriminate; try congruence.
Qed.

Lemma validateField_view_witness :
  (List.length (Form.errors (Form.view mail_field)) <= 1)%nat
  /\ Form.view (snd (Form.validateField mail_field))
     = Form.mkView true (Some "true") (Some "email-error")
         [("email-error", "Please enter a valid email address")].
Proof.
  assert (H : (List.length (Form.errors (Form.view mail_field)) <= 1)%nat)
    by (cbn; lia).
  split; [exact H|].
  exact (proj1 (validateField_view mail_field H)).
Defined.





(** * The active link of the navigation *)

Lemma ends_with_spec (s suffix : string) :
  Nav.ends_with s suffix = true <-> exists p, s = p ++ suffix.
Proof.
  induction s as [|c s IH]; cbn [Nav.ends_with].
  - rewrite orb_false_r. split.
    + intro H. apply String.eqb_eq in H as <-. now exists "".
    + intros (p & H). symmetry in H.
      destruct p; cbn in H; [subst; reflexivity|discriminate].
  - rewrite orb_true_iff, IH, String.eqb_eq. split.
    + intros [<-|(p & ->)]; [now exists ""|now exists (String c p)].
    + intros ([|x p] & H); cbn in H; [now left|].
      injection H as -> ->. right. now exists p.
Qed.

Lemma ends_with_longer (s a b : string) :
  Nav.ends_with s (a ++ b) = true -> Nav.ends_with s b = true.
Proof.
  rewrite !ends_with_spec. intros (p & ->). exists (p ++ a).
  now rewrite string_append_assoc.
Qed.

(** [setActiveNavLink] marks a link whose [href] is [index.html]
    exactly when the path ends with [index.html] or with a slash (the
    two tests for [/en/] and [/kn/] add nothing), marks any other link
    with a non-empty [href] exactly when the path ends with that
    [href], and never marks a link without [href] or with an empty
    one. *)
Theorem active_link (currentPath : string) (href : option string) :
  Nav.is_active currentPath href
  = match href with
    | None => false
    | Some h =>
        if String.eqb h "" then false
        else if String.eqb h "index.html"
             then Nav.ends_with currentPath "index.html"
                  || Nav.ends_with currentPath "/"
             else Nav.ends_with currentPath h
    end.
Proof.
  unfold Nav.is_active. destruct href as [h|]; [|reflexivity].
  destruct (String.eqb h "") eqn:Ee; [reflexivity|].
  destruct (String.eqb h "index.html") eqn:Ei.
  - apply String.eqb_eq in Ei. subst h. cbn [andb]. f_equal.
    destruct (Nav.ends_with currentPath "/") eqn:E1; [reflexivity|].
    cbn [orb].
    destruct (Nav.ends_with currentPath "/en/") eqn:E2.
    { apply (ends_with_longer currentPath "/en" "/") in E2. congruence. }
    destruct (Nav.ends_with currentPath "/kn/") eqn:E3; [|reflexivity].
    apply (ends_with_longer currentPath "/kn" "/") in E3. congruence.
  - cbn [andb]. apply orb_false_r.
Qed.

